(** * Music PDF toolkit: the splitter's edit session

    A shallow embedding of the PDF splitter's application logic
    (file-name derivation, instrument renaming, merging of neighbouring
    splits, regeneration of the outputs, preview and downloads) together
    with a model of the label resolver and the segmenter, the replica
    counts and the page total of the assembler, and the properties proved
    about them. *)

From Stdlib Require Import ZArith NArith Ascii String Lia.
From stdpp Require Import base tactics option numbers list pretty.

Local Open Scope Z_scope.

(** ** JavaScript strings

    A JavaScript string is a sequence of UTF-16 code units. *)

Definition char := N.
Definition jsstring := list char.

(** String literals of the source, written as Rocq strings. *)
Definition lit (s : string) : jsstring := N_of_ascii <$> list_ascii_of_string s.

Definition in_range (lo hi c : char) : bool := ((lo <=? c) && (c <=? hi))%N.
Arguments in_range (lo hi c)%_N_scope.

Definition is_digit (c : char) : bool := in_range 48 57 c.
Definition is_upper (c : char) : bool := in_range 65 90 c.
Definition is_lower (c : char) : bool := in_range 97 122 c.
Definition is_letter (c : char) : bool := is_upper c || is_lower c.

Definition hyphen : char := 45%N.
Definition underscore : char := 95%N.
Definition is_hyphen (c : char) : bool := (c =? hyphen)%N.

(** The class [\w] of a regular expression without the [u] and [i] flags:
    [A-Za-z0-9_]. *)
Definition is_word (c : char) : bool :=
  is_letter c || is_digit c || (c =? underscore)%N.

(** The class [\s]: the WhiteSpace and LineTerminator code points, which is
    also the set that [String.prototype.trim] removes. *)
Definition is_space (c : char) : bool :=
  in_range 9 13 c           (* TAB, LF, VT, FF, CR *)
  || (c =? 32)%N            (* SPACE *)
  || (c =? 160)%N           (* NO-BREAK SPACE *)
  || (c =? 5760)%N          (* U+1680 *)
  || in_range 8192 8202 c   (* U+2000 .. U+200A *)
  || (c =? 8232)%N          (* LINE SEPARATOR *)
  || (c =? 8233)%N          (* PARAGRAPH SEPARATOR *)
  || (c =? 8239)%N          (* U+202F *)
  || (c =? 8287)%N          (* U+205F *)
  || (c =? 12288)%N         (* U+3000 *)
  || (c =? 65279)%N.        (* U+FEFF *)

(** ** Regular-expression replacement

    [s.replace(/[C]/g, r)]: every code unit of the class is a match of its
    own and is replaced by [r]. *)
Definition replace_each (cls : char → bool) (r : jsstring) (s : jsstring)
  : jsstring :=
  c ← s; if cls c then r else [c].

(** [s.replace(/C+/g, r)]: scanning from the left, a match starts at the
    first code unit of the class and, [+] being greedy, extends over every
    following code unit of the class; the whole match is replaced by [r] and
    the scan goes on behind it. *)
Fixpoint replace_runs (cls : char → bool) (r : jsstring) (s : jsstring)
  : jsstring :=
  match s with
  | [] => []
  | c :: t =>
      if cls c then
        r ++ (fix behind_match (u : jsstring) : jsstring :=
                match u with
                | [] => []
                | d :: v =>
                    if cls d then behind_match v
                    else d :: replace_runs cls r v
                end) t
      else c :: replace_runs cls r t
  end.

(** The scan behind the first code unit of a match: the rest of the match is
    skipped. *)
Definition behind_match (cls : char → bool) (r : jsstring)
  : jsstring → jsstring :=
  fix behind (u : jsstring) : jsstring :=
    match u with
    | [] => []
    | d :: v => if cls d then behind v else d :: replace_runs cls r v
    end.

(** [s.trim()] *)
Fixpoint trim_start (s : jsstring) : jsstring :=
  match s with
  | c :: t => if is_space c then trim_start t else s
  | [] => []
  end.

Definition trim_end (s : jsstring) : jsstring := reverse (trim_start (reverse s)).

Definition trim (s : jsstring) : jsstring := trim_end (trim_start s).

(** ASCII case folding, as the [i] flag applies it to [p], [d] and [f]. *)
Definition to_lower (c : char) : char := if is_upper c then (c + 32)%N else c.

(** [name.replace(/\.pdf$/i, '')] *)
Definition strip_pdf_extension (name : jsstring) : jsstring :=
  let n := (length name - 4)%nat in
  if bool_decide (to_lower <$> drop n name = lit ".pdf") then take n name
  else name.

(** ** File names *)

(** [generateFilename(base, instrument)] *)
Definition generateFilename (base instrument : jsstring) : jsstring :=
  let sanitized :=
    replace_runs is_hyphen (lit "-")
      (replace_runs is_space (lit "-")
         (replace_each (λ c, negb (is_word c || is_space c || is_hyphen c))
            (lit "") instrument)) in
  base ++ lit "-" ++ sanitized ++ lit ".pdf".


(** ** Arrays

    [arr[i]] for a number [i]: [undefined] outside the array. *)
Definition js_get {A} (arr : list A) (i : Z) : option A :=
  if decide (0 ≤ i) then arr !! Z.to_nat i else None.

(** [arr[i] = x] on an array that may have holes: an index at or behind the
    end extends the array, leaving holes in between. *)
Definition js_set {A} (arr : list (option A)) (i : nat) (x : A)
  : list (option A) :=
  if decide (i < length arr)%nat then <[i := Some x]> arr
  else arr ++ replicate (i - length arr) None ++ [Some x].

(** ** The splits *)

Record Split := mkSplit {
  instrument : jsstring;
  startPage : Z;
  endPage : Z;
  pages : list Z
}.

(** How a function ends: it returns (an [async] function fulfils its promise)
    with [undefined], the only value the functions below return, or a
    [TypeError] escapes from it. *)
Inductive completion := Finished | TypeError.

Section EditSession.

(** The bytes of an assembled document, and the document library at work on
    the uploaded file: given the zero-based indices of the pages to copy it
    yields the bytes of the new document, or fails with an exception. *)
Context {Blob : Type} (assemble : list Z → option Blob).

(** An entry of [generatedPDFs]. The [split] field is written and never
    read back by the application; it holds the split as it is when the
    output is generated. In the application it is the split object itself,
    which a later edit changes in place: of an output that a failed
    regeneration leaves behind, the file name and the document are what
    they were, and nothing is said of this field. *)
Record GeneratedPDF := mkGenerated {
  filename : jsstring;
  blob : Blob;
  split : Split
}.

(** The module-level state of the application, with the two values it
    reads from its surroundings: the text of the base-filename input and
    the name of the uploaded file. *)
Record State := mkState {
  detectedSplits : list Split;
  generatedPDFs : list (option GeneratedPDF);
  baseFilenameInput : jsstring;
  currentFileName : jsstring
}.

Definition set_detectedSplits (l : list Split) (st : State) : State :=
  mkState l (generatedPDFs st) (baseFilenameInput st) (currentFileName st).

Definition set_generatedPDFs (g : list (option GeneratedPDF)) (st : State)
  : State :=
  mkState (detectedSplits st) g (baseFilenameInput st) (currentFileName st).

(** [regeneratePDFForSplit(index)], run to its end: every exception raised
    inside (by a missing split as by the document library) is caught and
    logged, and the state is left as it was. *)
Definition regeneratePDFForSplit (index : Z) (st : State) : State :=
  match js_get (detectedSplits st) index with
  | None => st
  | Some split =>
      match assemble ((λ p, p - 1) <$> pages split) with
      | None => st
      | Some blob =>
          let baseFilename :=
            match trim (baseFilenameInput st) with
            | [] => strip_pdf_extension (currentFileName st)
            | trimmed => trimmed
            end in
          let filename := generateFilename baseFilename (instrument split) in
          set_generatedPDFs
            (js_set (generatedPDFs st) (Z.to_nat index)
               (mkGenerated filename blob split)) st
      end
  end.

(** [handleInstrumentNameChange(event)], where [index] is the split index
    stored on the input element and [value] the text typed into it. The
    regeneration it starts is taken to its end. *)
Definition handleInstrumentNameChange (index : Z) (value : jsstring)
    (st : State) : completion * State :=
  let newName := trim value in
  match newName with
  | [] => (Finished, st)
  | _ =>
      match js_get (detectedSplits st) index with
      | None => (TypeError, st)
      | Some s =>
          let renamed := mkSplit newName (startPage s) (endPage s) (pages s) in
          (Finished,
           regeneratePDFForSplit index
             (set_detectedSplits
                (<[Z.to_nat index := renamed]> (detectedSplits st)) st))
      end
  end.

(** [window.mergeWithPrevious(index)]. The two splits are distinct objects;
    the closing [displayPreview()] renders the state and changes nothing. *)
Definition mergeWithPrevious (index : Z) (st : State) : completion * State :=
  if decide (index = 0) then (Finished, st)
  else
    match js_get (detectedSplits st) index,
          js_get (detectedSplits st) (index - 1) with
    | Some currentSplit, Some previousSplit =>
        let merged :=
          mkSplit (instrument previousSplit) (startPage previousSplit)
            (endPage currentSplit)
            (pages previousSplit ++ pages currentSplit) in
        let splits := <[Z.to_nat (index - 1) := merged]> (detectedSplits st) in
        let st1 :=
          set_generatedPDFs (delete (Z.to_nat index) (generatedPDFs st))
            (set_detectedSplits (delete (Z.to_nat index) splits) st) in
        (Finished, regeneratePDFForSplit (index - 1) st1)
    | _, _ => (TypeError, st)
    end.

(** [window.mergeWithNext(index)], under the same reading. *)
Definition mergeWithNext (index : Z) (st : State) : completion * State :=
  if decide (index = Z.of_nat (length (detectedSplits st)) - 1)
  then (Finished, st)
  else
    match js_get (detectedSplits st) index,
          js_get (detectedSplits st) (index + 1) with
    | Some currentSplit, Some nextSplit =>
        let merged :=
          mkSplit (instrument nextSplit) (startPage currentSplit)
            (endPage nextSplit)
            (pages currentSplit ++ pages nextSplit) in
        let splits := <[Z.to_nat index := merged]> (detectedSplits st) in
        let st1 :=
          set_generatedPDFs (delete (Z.to_nat (index + 1)) (generatedPDFs st))
            (set_detectedSplits (delete (Z.to_nat (index + 1)) splits) st) in
        (Finished, regeneratePDFForSplit index st1)
    | _, _ => (TypeError, st)
    end.

End EditSession.

Arguments GeneratedPDF : clear implicits.
Arguments State : clear implicits.

(** ** The label resolver and the segmenter

    The resolver and the segmenter live in the splitter module, which the
    application imports ([analyzePDF]); they are modelled from their
    specification. *)

Module Label.
(** Modelled from the spec: the [ResolvedLabel] of the data model, whose
    source (the splitter module) is missing:
    [{ pageIndex, instrument: string, matched: bool }]. *)
Record t := mk {
  pageIndex : Z;
  instrument : jsstring;
  matched : bool
}.
End Label.

(** Modelled from the spec: the punctuation the resolver's normalization
    strips (the splitter module is missing), read as the ASCII punctuation
    characters other than the hyphen. *)
Definition is_punctuation (c : char) : bool :=
  (in_range 33 47 c || in_range 58 64 c || in_range 91 96 c
   || in_range 123 126 c) && negb (is_hyphen c).

(** Modelled from the spec: the resolver's normalization (the splitter
    module is missing): trim whitespace, collapse internal whitespace,
    case-fold, strip punctuation except hyphens. *)
Definition normalize (raw : jsstring) : jsstring :=
  replace_each is_punctuation (lit "")
    (to_lower <$> replace_runs is_space (lit " ") (trim raw)).

Section Resolver.

(** The catalog's [allAliasesNormalized()], a sequence of
    [(alias, canonicalName)], the similarity score and the acceptance
    threshold, none of which the specification fixes. *)
Context (catalog : list (jsstring * jsstring)).
Context (similarity : jsstring → jsstring → Z) (threshold : Z).

(** Modelled from the spec: the matching policy's search (the splitter
    module is missing): the score of the fragment against every alias, and
    the best-scoring alias's score and canonical name (the first one among
    equals). *)
Fixpoint best_match (fragment : jsstring) (entries : list (jsstring * jsstring))
  : option (Z * jsstring) :=
  match entries with
  | [] => None
  | (alias, canonicalName) :: rest =>
      let score := similarity fragment alias in
      match best_match fragment rest with
      | Some (score', canonicalName') =>
          if decide (score' ≤ score) then Some (score, canonicalName)
          else Some (score', canonicalName')
      | None => Some (score, canonicalName)
      end
  end.

(** Modelled from the spec: [resolve(raw, previousResolved)] of the label
    resolver (the splitter module is missing). The page index of the
    label is the position behind the previous label's, 1 for the first
    page. *)
Definition resolve (raw : option jsstring) (previousResolved : option Label.t)
  : Label.t :=
  let index :=
    match previousResolved with
    | Some previous => Label.pageIndex previous + 1
    | None => 1
    end in
  match raw with
  | Some text =>
      let fragment := normalize text in
      match best_match fragment catalog with
      | Some (score, canonicalName) =>
          if decide (threshold ≤ score) then Label.mk index canonicalName true
          else Label.mk index fragment false
      | None => Label.mk index fragment false
      end
  | None =>
      match previousResolved with
      | Some previous =>
          Label.mk index (Label.instrument previous) (Label.matched previous)
      | None => Label.mk index (lit "") false
      end
  end.

(** Modelled from the spec: the resolution of the ordered sequence of
    per-page text fragments (the splitter module is missing), each page
    resolved against the label of the immediately preceding page. *)
Fixpoint resolve_pages (previousResolved : option Label.t)
    (raws : list (option jsstring)) : list Label.t :=
  match raws with
  | [] => []
  | raw :: rest =>
      let label := resolve raw previousResolved in
      label :: resolve_pages (Some label) rest
  end.

End Resolver.

(** Modelled from the spec: the split the segmenter opens at a page (the
    splitter module is missing), holding that page alone. *)
Definition opened (label : Label.t) : Split :=
  mkSplit (Label.instrument label) (Label.pageIndex label)
    (Label.pageIndex label) [Label.pageIndex label].

(** Modelled from the spec: the segmenter's pass with an open split (the
    splitter module is missing): a page whose instrument is the open
    split's is appended to it, any other page closes it and opens a new
    split; the open split is closed at the end of the input. *)
Fixpoint segment_from (open : Split) (labels : list Label.t) : list Split :=
  match labels with
  | [] => [open]
  | label :: rest =>
      if decide (Label.instrument label = instrument open) then
        segment_from
          (mkSplit (instrument open) (startPage open) (Label.pageIndex label)
             (pages open ++ [Label.pageIndex label])) rest
      else open :: segment_from (opened label) rest
  end.

(** Modelled from the spec: [segment(resolvedLabels)] of the segmenter (the
    splitter module is missing), a single left-to-right pass. *)
Definition segment (resolvedLabels : list Label.t) : list Split :=
  match resolvedLabels with
  | [] => []
  | label :: rest => segment_from (opened label) rest
  end.

(** A small catalog to run the resolver on: two instruments, an alias
    accepted only when it is the fragment itself. *)
Definition demo_catalog : list (jsstring * jsstring) :=
  [(lit "cornet", lit "Cornet"); (lit "trombone", lit "Trombone")].

Definition exact_similarity (fragment alias : jsstring) : Z :=
  if decide (fragment = alias) then 1 else 0.


(** ** The specification's vocabulary *)

(** The file-name rule in the words of the specification, for a given set
    of characters to keep: strip every character outside the set, replace
    each run of whitespace with a single hyphen, collapse runs of hyphens
    into one, and put the result between the base name and the extension. *)
Fixpoint hyphenate_runs (cls : char → bool) (in_run : bool) (s : jsstring)
  : jsstring :=
  match s with
  | [] => []
  | c :: t =>
      if cls c then
        if in_run then hyphenate_runs cls true t
        else hyphen :: hyphenate_runs cls true t
      else c :: hyphenate_runs cls false t
  end.

Definition sanitize_keeping (keep : char → bool) (instrument : jsstring)
  : jsstring :=
  hyphenate_runs is_hyphen false
    (hyphenate_runs is_space false (List.filter keep instrument)).

Definition deriveFilename_keeping (keep : char → bool)
    (base instrument : jsstring) : jsstring :=
  base ++ [hyphen] ++ sanitize_keeping keep instrument ++ lit ".pdf".

Definition is_alphanumeric (c : char) : bool := is_letter c || is_digit c.

(** The rule as the specification words it: alphanumerics, whitespace and
    hyphens are kept. *)
Definition deriveFilename_spec : jsstring → jsstring → jsstring :=
  deriveFilename_keeping (λ c, is_alphanumeric c || is_space c || is_hyphen c).

(** The invariant of a split: its pages are contiguous (hence strictly
    increasing), and its first and last page are cached in [startPage] and
    [endPage]. *)
Fixpoint contiguous (l : list Z) : Prop :=
  match l with
  | a :: (b :: _) as t => b = a + 1 ∧ contiguous t
  | _ => True
  end.

Definition split_ok (s : Split) : Prop :=
  contiguous (pages s)
  ∧ head (pages s) = Some (startPage s)
  ∧ last (pages s) = Some (endPage s).

(** The coverage invariant of a split list over the pages [1..N]. *)
Definition coverage (splits : list Split) (N : Z) : Prop :=
  Forall split_ok splits ∧ concat (pages <$> splits) = seqZ 1 N.

(** What a split says about its pages: each one with the split's
    instrument. *)
Definition labelled_pages (s : Split) : list (Z * jsstring) :=
  (λ p, (p, instrument s)) <$> pages s.

(** What a label says about its page. *)
Definition labelled (label : Label.t) : Z * jsstring :=
  (Label.pageIndex label, Label.instrument label).

(** Neighbouring entries of a list differ. *)
Fixpoint adjacent_differ {A} (l : list A) : Prop :=
  match l with
  | a :: (b :: _) as t => a ≠ b ∧ adjacent_differ t
  | _ => True
  end.

(** A call reports a rejection to its caller when it ends otherwise than a
    successful call does, which is by returning [undefined]. *)
Definition reports_rejection (c : completion) : Prop := c ≠ Finished.

(** The two splits of the merge scenarios, and a session holding them with
    their outputs. *)
Definition cornet1 : Split := mkSplit (lit "Cornet 1") 1 2 [1; 2].
Definition cornet2 : Split := mkSplit (lit "Cornet 2") 3 4 [3; 4].
Definition cornets : list Split := [cornet1; cornet2].

(** A document library that never fails, its documents told by the pages
    they hold. *)
Definition copy_pages (indices : list Z) : option (list Z) := Some indices.

(** A document library that fails on every call. *)
Definition refuse_pages (indices : list Z) : option (list Z) := None.

Definition cornet_session : State (list Z) :=
  mkState cornets
    [Some (mkGenerated (lit "Band-Cornet-1.pdf") [0; 1] cornet1);
     Some (mkGenerated (lit "Band-Cornet-2.pdf") [2; 3] cornet2)]
    (lit "Band") (lit "Band.pdf").

(** Four pages: two pages of a cornet part, then a page whose
    text differs from the cornet's in case only, then a trombone part. *)
Definition demo_labels : list Label.t :=
  [Label.mk 1 (lit "Cornet") true; Label.mk 2 (lit "Cornet") true;
   Label.mk 3 (lit "cornet") false; Label.mk 4 (lit "Trombone") true].

(** A session of four splits over six pages. *)
Definition brass : list Split :=
  [mkSplit (lit "Cornet") 1 2 [1; 2]; mkSplit (lit "Horn") 3 3 [3];
   mkSplit (lit "Trombone") 4 5 [4; 5]; mkSplit (lit "Bass") 6 6 [6]].

Definition brass_session : State (list Z) :=
  mkState brass
    [Some (mkGenerated (lit "Band-Cornet.pdf") [0; 1]
             (mkSplit (lit "Cornet") 1 2 [1; 2]));
     Some (mkGenerated (lit "Band-Horn.pdf") [2] (mkSplit (lit "Horn") 3 3 [3]));
     Some (mkGenerated (lit "Band-Trombone.pdf") [3; 4]
             (mkSplit (lit "Trombone") 4 5 [4; 5]));
     Some (mkGenerated (lit "Band-Bass.pdf") [5] (mkSplit (lit "Bass") 6 6 [6]))]
    (lit "Band") (lit "Band.pdf").

(** No two hyphens stand side by side. *)
Fixpoint no_double_hyphen (s : jsstring) : Prop :=
  match s with
  | a :: (b :: _) as t => ¬ (a = hyphen ∧ b = hyphen) ∧ no_double_hyphen t
  | _ => True
  end.

(** The characters a sanitized instrument name is made of. *)
Definition is_filename_char (c : char) : bool := is_word c || is_hyphen c.

(** A tidy name: not empty, and without whitespace at either end. *)
Definition tidy (name : jsstring) : Prop :=
  name ≠ []
  ∧ (∀ c, head name = Some c → is_space c = false)
  ∧ (∀ c, last name = Some c → is_space c = false).

(** ** The rest of the splitter application *)

(** [`${n}`] for an integer [n] below [10^21] in size, as page numbers and
    page totals are: its decimal numeral. *)
Definition number_to_string (n : Z) : jsstring := lit (pretty n).

(** What [displayPreview()] computes for a split and writes into its item of
    the list: the page range, the page count with its label, and [isFirst]
    and [isLast], which disable the Merge Up and the Merge Down button. The
    instrument name, which goes unescaped into the markup of the input, is
    left out: what the input shows of it is up to the parsing of the
    markup. *)
Record SplitItem := mkSplitItem {
  pageRange : jsstring;
  pageCount : nat;
  pageLabel : jsstring;
  isFirst : bool;
  isLast : bool
}.

(** The [forEach] of [displayPreview()] over [detectedSplits]. *)
Definition displayPreview (detectedSplits : list Split) : list SplitItem :=
  imap
    (λ index split,
       let pageRange :=
         if decide (startPage split = endPage split)
         then lit "Page " ++ number_to_string (startPage split)
         else lit "Pages " ++ number_to_string (startPage split)
              ++ lit "-" ++ number_to_string (endPage split) in
       let pageCount := length (pages split) in
       let pageLabel := if decide (pageCount = 1%nat) then lit "page"
                        else lit "pages" in
       let isFirst := bool_decide (index = 0%nat) in
       let isLast :=
         bool_decide (Z.of_nat index = Z.of_nat (length detectedSplits) - 1) in
       mkSplitItem pageRange pageCount pageLabel isFirst isLast)
    detectedSplits.

Section Application.

Context {Blob : Type} (assemble : list Z → option Blob).

(** The [baseFilename] of [regeneratePDFForSplit]: the trimmed text of the
    input or, when that is empty, the name of the uploaded file without its
    [.pdf]. *)
Definition baseFilename (st : State Blob) : jsstring :=
  match trim (baseFilenameInput st) with
  | [] => strip_pdf_extension (currentFileName st)
  | trimmed => trimmed
  end.

(** [handleFilenameChange()]: the outputs of all splits are regenerated, in
    order. The regenerations leave [detectedSplits], and with it the bound
    of the loop, as they are. *)
Definition handleFilenameChange (st : State Blob) : State Blob :=
  foldl (λ st i, regeneratePDFForSplit assemble (Z.of_nat i) st) st
    (seq 0 (length (detectedSplits st))).

(** [downloadFile(blob, filename)] hands a document to the browser under a
    file name; the downloads of a call are recorded as the list of these
    pairs. *)

(** [window.downloadSingle(index)] *)
Definition downloadSingle (index : Z) (st : State Blob)
  : completion * list (Blob * jsstring) :=
  match js_get (generatedPDFs st) index with
  | Some (Some pdf) => (Finished, [(blob pdf, filename pdf)])
  | _ => (TypeError, [])
  end.

(** The [for ... of] loop of [downloadAll()]: a hole of the array is visited
    as [undefined], and reading its [blob] ends the loop with a
    [TypeError]. *)
Fixpoint downloadAll_loop (pdfs : list (option (GeneratedPDF Blob)))
  : completion * list (Blob * jsstring) :=
  match pdfs with
  | [] => (Finished, [])
  | Some pdf :: rest =>
      let '(end_, downloads) := downloadAll_loop rest in
      (end_, (blob pdf, filename pdf) :: downloads)
  | None :: _ => (TypeError, [])
  end.

(** [downloadAll()] *)
Definition downloadAll (st : State Blob) : completion * list (Blob * jsstring) :=
  downloadAll_loop (generatedPDFs st).

(** The outputs are in step with the splits: there is one output for each
    split, at the split's index, and it is what a regeneration of the split
    yields in this state. *)
Definition in_sync (st : State Blob) : Prop :=
  length (generatedPDFs st) = length (detectedSplits st)
  ∧ ∀ (i : nat) (s : Split),
      detectedSplits st !! i = Some s →
      ∃ blob,
        assemble ((λ p, p - 1) <$> pages s) = Some blob
        ∧ generatedPDFs st !! i
          = Some (Some (mkGenerated
                          (generateFilename (baseFilename st) (instrument s))
                          blob s)).

End Application.

(** ** The assembler: copies of each part in one document *)

(** The value of a code unit as a digit of the given radix, for the digits
    [0-9] and the letters [a-z] and [A-Z]. *)
Definition digit_value (radix : N) (c : char) : option N :=
  let value :=
    if is_digit c then Some (c - 48)%N
    else if is_lower c then Some (c - 87)%N
    else if is_upper c then Some (c - 55)%N
    else None in
  match value with
  | Some d => if (d <? radix)%N then Some d else None
  | None => None
  end.

(** The number written by the longest prefix of digits, [None] when the
    prefix is empty and nothing has been read so far. *)
Fixpoint parse_digits (radix : N) (read : option N) (s : jsstring)
  : option N :=
  match s with
  | [] => read
  | c :: t =>
      match digit_value radix c with
      | Some d => parse_digits radix (Some (radix * default 0 read + d))%N t
      | None => read
      end
  end.

(** [parseInt(string)] without a radix: leading whitespace is skipped, a
    sign is read, a prefix [0x] or [0X] makes the radix 16, and the longest
    prefix of digits is the number; [None] stands for [NaN]. The number is
    the exact integer: the rounding of a long numeral to a double does not
    show behind the clamping below. *)
Definition parseInt (string : jsstring) : option Z :=
  let s := trim_start string in
  let '(sign, s) :=
    match s with
    | c :: t =>
        if (c =? 45)%N then (-1, t) else if (c =? 43)%N then (1, t) else (1, s)
    | [] => (1, s)
    end in
  let '(radix, s) :=
    match s with
    | c :: x :: t =>
        if ((c =? 48) && ((x =? 120) || (x =? 88)))%N then (16%N, t)
        else (10%N, s)
    | _ => (10%N, s)
    end in
  match parse_digits radix None s with
  | Some n => Some (sign * Z.of_N n)
  | None => None
  end.

Module Assembler.

Section Documents.

(** The pages of a loaded document stand for the document. *)
Context {Page : Type}.

(** An entry of [uploadedPDFs]. *)
Record UploadedPDF := mkUploaded {
  name : jsstring;
  pdfDoc : list Page;
  pageCount : Z;
  replicas : Z
}.

(** The entry [processPDF(file)] pushes for a loaded document. *)
Definition uploaded (name : jsstring) (pdfDoc : list Page) : UploadedPDF :=
  mkUploaded name pdfDoc (Z.of_nat (length pdfDoc)) 1.

(** [window.updateReplicas(index, value)], up to the refresh of the total
    on the page. *)
Definition updateReplicas (index : Z) (value : jsstring)
    (uploadedPDFs : list UploadedPDF) : completion * list UploadedPDF :=
  let replicas :=
    match parseInt value with
    | Some 0 | None => 0
    | Some n => n
    end in
  match js_get uploadedPDFs index with
  | None => (TypeError, uploadedPDFs)
  | Some pdf =>
      (Finished,
       <[Z.to_nat index :=
           mkUploaded (name pdf) (pdfDoc pdf) (pageCount pdf)
             (Z.max 0 (Z.min 99 replicas))]> uploadedPDFs)
  end.

(** The [total] of [updateTotalPages()]. *)
Definition totalPages (uploadedPDFs : list UploadedPDF) : Z :=
  foldl (λ sum pdf, sum + pageCount pdf * replicas pdf) 0 uploadedPDFs.

(** The text [updateTotalPages()] shows. *)
Definition updateTotalPages (uploadedPDFs : list UploadedPDF) : jsstring :=
  let total := totalPages uploadedPDFs in
  lit "Total: " ++ number_to_string total ++ lit " page"
  ++ (if decide (total ≠ 1) then lit "s" else lit "").

(** The pages [assemblePDF()] copies into the master document: for each
    entry, as many times as it has replicas, all pages of its document, added
    at the end. The calls of the document library are taken to succeed. *)
Definition copiedPages (uploadedPDFs : list UploadedPDF) : list Page :=
  pdf ← uploadedPDFs;
  mjoin (replicate (Z.to_nat (replicas pdf)) (pdfDoc pdf)).

(** The pages of the master document of [assemblePDF()] as it is saved and
    downloaded: the copied pages or, when no page was copied, the one blank
    page ([None]) that saving adds to a document without pages. *)
Definition assemblePDF (uploadedPDFs : list UploadedPDF) : list (option Page) :=
  match copiedPages uploadedPDFs with
  | [] => [None]
  | copied => Some <$> copied
  end.

End Documents.

Arguments UploadedPDF : clear implicits.

End Assembler.

(** Two uploaded parts, pages told by numbers: a cornet part of two pages
    and a horn part of one page, to be copied three times. *)
Definition demo_uploads : list (Assembler.UploadedPDF nat) :=
  [Assembler.uploaded (lit "cornet.pdf") [1; 2]%nat;
   Assembler.mkUploaded (lit "horn.pdf") [3]%nat 1 3].

(** * Properties *)

(** ** Regular-expression replacement and file names *)

Lemma replace_runs_cons cls r c t :
  replace_runs cls r (c :: t)
  = if cls c then r ++ behind_match cls r t else c :: replace_runs cls r t.
Proof. reflexivity. Qed.

Lemma replace_runs_hyphenate cls s :
  replace_runs cls [hyphen] s = hyphenate_runs cls false s
  ∧ behind_match cls [hyphen] s = hyphenate_runs cls true s.
Proof.
  induction s as [|c t [IHrun IHbehind]]; [done|].
  rewrite replace_runs_cons. cbn [behind_match hyphenate_runs].
  fold (behind_match cls [hyphen]).
  destruct (cls c); rewrite ?IHrun, ?IHbehind; done.
Qed.

Lemma replace_each_filter cls s :
  replace_each cls [] s = List.filter (λ c, negb (cls c)) s.
Proof.
  unfold replace_each. induction s as [|c t IH]; [done|].
  cbn. rewrite <- IH. by destruct (cls c).
Qed.

Lemma generateFilename_keeping base instrument :
  generateFilename base instrument
  = deriveFilename_keeping (λ c, is_word c || is_space c || is_hyphen c)
      base instrument.
Proof.
  unfold generateFilename, deriveFilename_keeping, sanitize_keeping.
  change (lit "-") with [hyphen]. change (lit "") with (@nil char).
  rewrite replace_each_filter.
  rewrite !(proj1 (replace_runs_hyphenate _ _)).
  do 5 f_equal. apply List.filter_ext. intros c. apply negb_involutive.
Qed.

(** C1 (as amended). The file name is the base name, a hyphen, the
    sanitized instrument name and [.pdf], where sanitizing strips every
    character that is not an ASCII letter, a digit, an underscore,
    whitespace or a hyphen, replaces each run of whitespace with a single
    hyphen and collapses runs of hyphens into one; in particular
    [deriveFilename("MyBand", "1st Horn (Eb)!")] is
    ["MyBand-1st-Horn-Eb.pdf"]. *)
Theorem generateFilename_rule :
  (∀ base instrument : jsstring,
     generateFilename base instrument
     = base ++ lit "-"
       ++ sanitize_keeping (λ c, is_word c || is_space c || is_hyphen c)
            instrument
       ++ lit ".pdf")
  ∧ generateFilename (lit "MyBand") (lit "1st Horn (Eb)!")
    = lit "MyBand-1st-Horn-Eb.pdf".
Proof.
  split.
  - intros base instrument. apply generateFilename_keeping.
  - vm_compute. reflexivity.
Qed.

(** C1 as stated fails: an underscore is neither alphanumeric nor
    whitespace nor a hyphen, yet it stays in the file name. *)
Lemma generateFilename_keeps_underscore :
  generateFilename (lit "MyBand") (lit "Solo_Cornet")
  = lit "MyBand-Solo_Cornet.pdf"
  ∧ deriveFilename_spec (lit "MyBand") (lit "Solo_Cornet")
    = lit "MyBand-SoloCornet.pdf"
  ∧ generateFilename (lit "MyBand") (lit "Solo_Cornet")
    ≠ deriveFilename_spec (lit "MyBand") (lit "Solo_Cornet").
Proof.
  vm_compute. split; [reflexivity | split; [reflexivity | discriminate]].
Qed.

(** ** Arrays *)

Lemma js_get_Some {A} (arr : list A) (i : Z) (x : A) :
  js_get arr i = Some x ↔ 0 ≤ i ∧ arr !! Z.to_nat i = Some x.
Proof.
  unfold js_get. destruct (decide (0 ≤ i)) as [Hi|Hi].
  - split; [done | by intros [_ ?]].
  - split; [done | intros [? _]; lia].
Qed.

Lemma js_set_length_lt {A} (arr : list (option A)) (i : nat) (x : A) :
  (i < length arr)%nat → length (js_set arr i x) = length arr.
Proof.
  intros Hi. unfold js_set. case_decide; [|lia]. apply length_insert.
Qed.

Lemma js_set_lookup_ne {A} (arr : list (option A)) (i j : nat) (x : A) :
  (i < length arr)%nat → i ≠ j → js_set arr i x !! j = arr !! j.
Proof.
  intros Hi Hne. unfold js_set. case_decide; [|lia].
  by apply list_lookup_insert_ne.
Qed.

(** Overwriting one element and removing its successor. *)
Lemma insert_delete_next {A} (l : list A) (i : nat) (a b m : A) :
  l !! i = Some a → l !! S i = Some b →
  delete (S i) (<[i := m]> l) = take i l ++ m :: drop (S (S i)) l.
Proof.
  revert l. induction i as [|i IH]; intros [|x l] Ha Hb; simplify_eq/=.
  - destruct l; simplify_eq/=. done.
  - f_equal. by apply IH.
Qed.

Lemma split_at_pair {A} (l : list A) (i : nat) (a b : A) :
  l !! i = Some a → l !! S i = Some b →
  l = take i l ++ a :: b :: drop (S (S i)) l.
Proof.
  revert l. induction i as [|i IH]; intros [|x l] Ha Hb; simplify_eq/=.
  - destruct l; simplify_eq/=. done.
  - f_equal. by apply IH.
Qed.

(** ** The edit session *)

Section EditSessionProperties.

Context {Blob : Type} (assemble : list Z → option Blob).
Implicit Types (st : State Blob) (index : Z).

Lemma regenerate_detectedSplits index st :
  detectedSplits (regeneratePDFForSplit assemble index st)
  = detectedSplits st.
Proof.
  unfold regeneratePDFForSplit.
  destruct (js_get _ _); [|done]. by destruct (assemble _).
Qed.

Lemma regenerate_other_fields index st :
  baseFilenameInput (regeneratePDFForSplit assemble index st)
  = baseFilenameInput st
  ∧ currentFileName (regeneratePDFForSplit assemble index st)
    = currentFileName st.
Proof.
  unfold regeneratePDFForSplit.
  destruct (js_get _ _); [|done]. by destruct (assemble _).
Qed.

Lemma regenerate_generated_length index st :
  0 ≤ index → (Z.to_nat index < length (generatedPDFs st))%nat →
  length (generatedPDFs (regeneratePDFForSplit assemble index st))
  = length (generatedPDFs st).
Proof.
  intros H0 Hlt. unfold regeneratePDFForSplit.
  destruct (js_get _ _); [|done]. destruct (assemble _); [|done].
  cbn. by apply js_set_length_lt.
Qed.

Lemma regenerate_generated_other index st (j : nat) :
  (Z.to_nat index < length (generatedPDFs st))%nat → Z.to_nat index ≠ j →
  generatedPDFs (regeneratePDFForSplit assemble index st) !! j
  = generatedPDFs st !! j.
Proof.
  intros Hlt Hne. unfold regeneratePDFForSplit.
  destruct (js_get _ _); [|done]. destruct (assemble _); [|done].
  cbn. by apply js_set_lookup_ne.
Qed.

(** What [mergeWithPrevious] does at an index with a split and a
    predecessor. *)
Lemma mergeWithPrevious_run index st prev cur :
  js_get (detectedSplits st) (index - 1) = Some prev →
  js_get (detectedSplits st) index = Some cur →
  let n := Z.to_nat (index - 1) in
  let merged :=
    mkSplit (instrument prev) (startPage prev) (endPage cur)
      (pages prev ++ pages cur) in
  mergeWithPrevious assemble index st
  = (Finished,
     regeneratePDFForSplit assemble (index - 1)
       (mkState
          (take n (detectedSplits st)
           ++ merged :: drop (S (S n)) (detectedSplits st))
          (delete (S n) (generatedPDFs st))
          (baseFilenameInput st) (currentFileName st))).
Proof.
  intros Hprev Hcur n merged. unfold mergeWithPrevious.
  apply js_get_Some in Hprev as Hp. destruct Hp as [Hp0 Hp].
  apply js_get_Some in Hcur as Hc. destruct Hc as [_ Hc].
  case_decide; [lia|]. rewrite Hprev, Hcur.
  replace (Z.to_nat index) with (S n) in * by lia.
  fold n in Hp. fold merged. fold n.
  unfold set_generatedPDFs, set_detectedSplits; cbn.
  by rewrite (insert_delete_next _ n prev cur).
Qed.

(** What [mergeWithNext] does at an index with a split and a successor. *)
Lemma mergeWithNext_run index st cur next :
  js_get (detectedSplits st) index = Some cur →
  js_get (detectedSplits st) (index + 1) = Some next →
  let n := Z.to_nat index in
  let merged :=
    mkSplit (instrument next) (startPage cur) (endPage next)
      (pages cur ++ pages next) in
  mergeWithNext assemble index st
  = (Finished,
     regeneratePDFForSplit assemble index
       (mkState
          (take n (detectedSplits st)
           ++ merged :: drop (S (S n)) (detectedSplits st))
          (delete (S n) (generatedPDFs st))
          (baseFilenameInput st) (currentFileName st))).
Proof.
  intros Hcur Hnext n merged. unfold mergeWithNext.
  apply js_get_Some in Hcur as Hc. destruct Hc as [Hc0 Hc].
  apply js_get_Some in Hnext as Hn. destruct Hn as [_ Hn].
  replace (Z.to_nat (index + 1)) with (S n) in * by lia.
  fold n in Hc.
  apply lookup_lt_Some in Hn as Hlen.
  case_decide; [lia|]. rewrite Hcur, Hnext. fold merged.
  unfold set_generatedPDFs, set_detectedSplits; cbn.
  by rewrite (insert_delete_next _ n cur next).
Qed.

End EditSessionProperties.

(** ** Coverage *)

Lemma contiguous_lookup (l : list Z) :
  contiguous l ↔ ∀ i a b, l !! i = Some a → l !! S i = Some b → b = a + 1.
Proof.
  induction l as [|x [|y l] IH].
  - split; [intros _ i a b H; by destruct i | done].
  - split; [intros _ [|i] a b H1 H2; simplify_eq/= | done].
  - cbn [contiguous]. rewrite IH. split.
    + intros [Hxy Hl] [|i] a b H1 H2; simplify_eq/=; [done|].
      by apply (Hl i).
    + intros H. split; [by apply (H 0%nat)|].
      intros i a b H1 H2. by apply (H (S i)).
Qed.

Lemma contiguous_seqZ (m n : Z) : contiguous (seqZ m n).
Proof.
  apply contiguous_lookup. intros i a b Ha Hb.
  apply lookup_seqZ in Ha as [-> _]. apply lookup_seqZ in Hb as [-> _]. lia.
Qed.

Lemma contiguous_infix (l1 l l2 : list Z) :
  contiguous (l1 ++ l ++ l2) → contiguous l.
Proof.
  rewrite !contiguous_lookup. intros H i a b Ha Hb.
  apply (H (length l1 + i)%nat).
  - rewrite lookup_app_r by lia.
    replace (length l1 + i - length l1)%nat with i by lia.
    by apply lookup_app_l_Some.
  - replace (S (length l1 + i)) with (length l1 + S i)%nat by lia.
    rewrite lookup_app_r by lia.
    replace (length l1 + S i - length l1)%nat with (S i) by lia.
    by apply lookup_app_l_Some.
Qed.

(** Merging two neighbours of a covering split list into a split with their
    pages, the first one's start and the second one's end. *)
Lemma coverage_merge_app (pre post : list Split) (a b m : Split) (N : Z) :
  coverage (pre ++ a :: b :: post) N →
  startPage m = startPage a → endPage m = endPage b →
  pages m = pages a ++ pages b →
  split_ok m ∧ coverage (pre ++ m :: post) N.
Proof.
  intros [Hall Hcat] Hs He Hp.
  apply Forall_app in Hall as [Hpre Hall].
  apply Forall_cons in Hall as [(Ca & Ha1 & Ha2) Hall].
  apply Forall_cons in Hall as [(Cb & Hb1 & Hb2) Hpost].
  rewrite fmap_app, concat_app in Hcat. cbn in Hcat.
  assert (split_ok m) as Hm.
  { unfold split_ok. rewrite Hp, Hs, He. split; [|split].
    - apply (contiguous_infix (concat (pages <$> pre)) _
               (concat (pages <$> post))).
      rewrite <- (assoc_L (++)), Hcat. apply contiguous_seqZ.
    - apply head_app_Some. by left.
    - apply last_app_Some. by left. }
  split; [done|]. split.
  - apply Forall_app. split; [done|]. by apply Forall_cons.
  - rewrite fmap_app, concat_app. cbn. rewrite Hp, <- (assoc_L (++)). done.
Qed.

Lemma coverage_merge_at (l : list Split) (n : nat) (a b m : Split) (N : Z) :
  coverage l N → l !! n = Some a → l !! S n = Some b →
  startPage m = startPage a → endPage m = endPage b →
  pages m = pages a ++ pages b →
  split_ok m ∧ coverage (take n l ++ m :: drop (S (S n)) l) N.
Proof.
  intros Hcov Ha Hb. rewrite (split_at_pair l n a b Ha Hb) in Hcov.
  by apply coverage_merge_app.
Qed.

Lemma length_merged {A} (l : list A) (n : nat) (a b m : A) :
  l !! n = Some a → l !! S n = Some b →
  S (length (take n l ++ m :: drop (S (S n)) l)) = length l.
Proof.
  intros Ha Hb. apply lookup_lt_Some in Hb.
  rewrite length_app, length_take, length_cons, length_drop. lia.
Qed.

Lemma lookup_merged {A} (l : list A) (n j : nat) (a b m : A) :
  l !! n = Some a → l !! S n = Some b →
  (take n l ++ m :: drop (S (S n)) l) !! j
  = if decide (j < n)%nat then l !! j
    else if decide (j = n) then Some m else l !! S j.
Proof.
  intros Ha Hb. apply lookup_lt_Some in Hb.
  assert (length (take n l) = n) as Hlen by (rewrite length_take; lia).
  destruct (decide (j < n)%nat) as [Hlt|Hge].
  - rewrite lookup_app_l by lia. by apply lookup_take_lt.
  - rewrite lookup_app_r by lia. rewrite Hlen.
    destruct (decide (j = n)) as [->|Hne].
    + by rewrite Nat.sub_diag.
    + destruct (j - n)%nat as [|k] eqn:Hk; [lia|].
      rewrite <- lookup_tail. cbn [tail].
      rewrite lookup_drop. f_equal. lia.
Qed.

(** ** Merging neighbouring splits *)

Section MergeTheorems.

Context {Blob : Type} (assemble : list Z → option Blob).
Implicit Types (st : State Blob) (index : Z).

(** C2. For an index above 0 that holds a split, [mergeWithPrevious(index)]
    leaves at [index-1] a split with the previous split's instrument, the
    pages of [splits[index-1]] followed by those of [splits[index]], and the
    end page of [splits[index]], and the split that was at [index] is gone.
    In particular, from the splits ["Cornet 1"] (pages 1-2) and ["Cornet 2"]
    (pages 3-4), [mergeWithPrevious(1)] leaves the single split ["Cornet 1"]
    with pages 1-4. *)
Theorem mergeWithPrevious_merges :
  (∀ st index prev cur,
     0 < index →
     js_get (detectedSplits st) (index - 1) = Some prev →
     js_get (detectedSplits st) index = Some cur →
     ∃ st' merged,
       mergeWithPrevious assemble index st = (Finished, st')
       ∧ js_get (detectedSplits st') (index - 1) = Some merged
       ∧ instrument merged = instrument prev
       ∧ pages merged = pages prev ++ pages cur
       ∧ endPage merged = endPage cur
       ∧ detectedSplits st'
         = take (Z.to_nat (index - 1)) (detectedSplits st)
           ++ merged :: drop (Z.to_nat (index + 1)) (detectedSplits st))
  ∧ (∀ generated base file,
       detectedSplits
         (mergeWithPrevious assemble 1 (mkState cornets generated base file)).2
       = [mkSplit (lit "Cornet 1") 1 4 [1; 2; 3; 4]]).
Proof.
  split.
  - intros st index prev cur Hpos Hprev Hcur.
    rewrite (mergeWithPrevious_run assemble index st prev cur Hprev Hcur).
    eexists _, (mkSplit _ _ _ _). split; [reflexivity|].
    rewrite regenerate_detectedSplits. cbn.
    apply js_get_Some in Hprev as [_ Hprev].
    apply js_get_Some in Hcur as [_ Hcur].
    replace (Z.to_nat index) with (S (Z.to_nat (index - 1))) in Hcur by lia.
    replace (Z.to_nat (index + 1)) with (S (S (Z.to_nat (index - 1)))) by lia.
    repeat split; try reflexivity.
    apply js_get_Some. split; [lia|].
    rewrite (lookup_merged _ _ _ prev cur) by done.
    case_decide; [lia|]. by case_decide.
  - intros generated base file.
    rewrite (mergeWithPrevious_run assemble 1 _ cornet1 cornet2)
      by reflexivity.
    cbn [snd]. rewrite regenerate_detectedSplits. reflexivity.
Qed.

(** C3. For an index below the last index, [mergeWithNext(index)] makes the
    split at [index] adopt the next split's instrument, its pages become the
    pages of [splits[index]] followed by those of [splits[index+1]], its end
    page the end page of [splits[index+1]], and the split that was at
    [index+1] is gone. In particular, from the splits ["Cornet 1"]
    (pages 1-2) and ["Cornet 2"] (pages 3-4), [mergeWithNext(0)] leaves the
    single split ["Cornet 2"] with pages 1-4. *)
Theorem mergeWithNext_merges :
  (∀ st index cur next,
     index < Z.of_nat (length (detectedSplits st)) - 1 →
     js_get (detectedSplits st) index = Some cur →
     js_get (detectedSplits st) (index + 1) = Some next →
     ∃ st' merged,
       mergeWithNext assemble index st = (Finished, st')
       ∧ js_get (detectedSplits st') index = Some merged
       ∧ instrument merged = instrument next
       ∧ pages merged = pages cur ++ pages next
       ∧ endPage merged = endPage next
       ∧ detectedSplits st'
         = take (Z.to_nat index) (detectedSplits st)
           ++ merged :: drop (Z.to_nat (index + 2)) (detectedSplits st))
  ∧ (∀ generated base file,
       detectedSplits
         (mergeWithNext assemble 0 (mkState cornets generated base file)).2
       = [mkSplit (lit "Cornet 2") 1 4 [1; 2; 3; 4]]).
Proof.
  split.
  - intros st index cur next Hlast Hcur Hnext.
    rewrite (mergeWithNext_run assemble index st cur next Hcur Hnext).
    eexists _, (mkSplit _ _ _ _). split; [reflexivity|].
    rewrite regenerate_detectedSplits. cbn.
    apply js_get_Some in Hcur as [Hi Hcur].
    apply js_get_Some in Hnext as [_ Hnext].
    replace (Z.to_nat (index + 1)) with (S (Z.to_nat index)) in Hnext by lia.
    replace (Z.to_nat (index + 2)) with (S (S (Z.to_nat index))) by lia.
    repeat split; try reflexivity.
    apply js_get_Some. split; [lia|].
    rewrite (lookup_merged _ _ _ cur next) by done.
    case_decide; [lia|]. by case_decide.
  - intros generated base file.
    rewrite (mergeWithNext_run assemble 0 _ cornet1 cornet2)
      by reflexivity.
    cbn [snd]. rewrite regenerate_detectedSplits. reflexivity.
Qed.

End MergeTheorems.

Lemma js_get_neighbours {A} (arr : list A) (i : Z) :
  0 ≤ i → i + 1 < Z.of_nat (length arr) →
  ∃ a b, js_get arr i = Some a ∧ js_get arr (i + 1) = Some b
         ∧ arr !! Z.to_nat i = Some a ∧ arr !! S (Z.to_nat i) = Some b.
Proof.
  intros H0 Hlt.
  destruct (lookup_lt_is_Some_2 arr (Z.to_nat i)) as [a Ha]; [lia|].
  destruct (lookup_lt_is_Some_2 arr (S (Z.to_nat i))) as [b Hb]; [lia|].
  exists a, b. repeat split; try done.
  - apply js_get_Some. by split.
  - apply js_get_Some. split; [lia|].
    by replace (Z.to_nat (i + 1)) with (S (Z.to_nat i)) by lia.
Qed.

Section MergeInvariants.

Context {Blob : Type} (assemble : list Z → option Blob).
Implicit Types (st : State Blob) (index : Z).

(** The split list after a merge up, for an index above 0 in the list. *)
Lemma mergeWithPrevious_splits st index :
  0 < index < Z.of_nat (length (detectedSplits st)) →
  ∃ prev cur,
    detectedSplits st !! Z.to_nat (index - 1) = Some prev
    ∧ detectedSplits st !! S (Z.to_nat (index - 1)) = Some cur
    ∧ mergeWithPrevious assemble index st
      = (Finished,
         regeneratePDFForSplit assemble (index - 1)
           (mkState
              (take (Z.to_nat (index - 1)) (detectedSplits st)
               ++ mkSplit (instrument prev) (startPage prev) (endPage cur)
                    (pages prev ++ pages cur)
                  :: drop (S (S (Z.to_nat (index - 1)))) (detectedSplits st))
              (delete (S (Z.to_nat (index - 1))) (generatedPDFs st))
              (baseFilenameInput st) (currentFileName st))).
Proof.
  intros Hi.
  destruct (js_get_neighbours (detectedSplits st) (index - 1))
    as (prev & cur & Hprev & Hcur & Hp & Hc); [lia..|].
  replace (index - 1 + 1) with index in Hcur by lia.
  exists prev, cur. repeat split; try done.
  by apply mergeWithPrevious_run.
Qed.

(** The split list after a merge down, for an index below the last one. *)
Lemma mergeWithNext_splits st index :
  0 ≤ index < Z.of_nat (length (detectedSplits st)) - 1 →
  ∃ cur next,
    detectedSplits st !! Z.to_nat index = Some cur
    ∧ detectedSplits st !! S (Z.to_nat index) = Some next
    ∧ mergeWithNext assemble index st
      = (Finished,
         regeneratePDFForSplit assemble index
           (mkState
              (take (Z.to_nat index) (detectedSplits st)
               ++ mkSplit (instrument next) (startPage cur) (endPage next)
                    (pages cur ++ pages next)
                  :: drop (S (S (Z.to_nat index))) (detectedSplits st))
              (delete (S (Z.to_nat index)) (generatedPDFs st))
              (baseFilenameInput st) (currentFileName st))).
Proof.
  intros Hi.
  destruct (js_get_neighbours (detectedSplits st) index)
    as (cur & next & Hcur & Hnext & Hc & Hn); [lia..|].
  exists cur, next. repeat split; try done.
  by apply mergeWithNext_run.
Qed.

(** C4. On a split list that satisfies the coverage invariant, a merge at
    a valid index (above 0 for [mergeWithPrevious], below the last index
    for [mergeWithNext]) leaves a split list that satisfies it again, the
    merged split starting at the first and ending at the last of its merged
    pages, and the list is shorter by exactly one. *)
Theorem merge_preserves_coverage st (N : Z) index :
  coverage (detectedSplits st) N →
  (0 < index < Z.of_nat (length (detectedSplits st)) →
   let splits' := detectedSplits (mergeWithPrevious assemble index st).2 in
   coverage splits' N
   ∧ (∃ merged, splits' !! Z.to_nat (index - 1) = Some merged
                ∧ head (pages merged) = Some (startPage merged)
                ∧ last (pages merged) = Some (endPage merged))
   ∧ S (length splits') = length (detectedSplits st))
  ∧ (0 ≤ index < Z.of_nat (length (detectedSplits st)) - 1 →
     let splits' := detectedSplits (mergeWithNext assemble index st).2 in
     coverage splits' N
     ∧ (∃ merged, splits' !! Z.to_nat index = Some merged
                  ∧ head (pages merged) = Some (startPage merged)
                  ∧ last (pages merged) = Some (endPage merged))
     ∧ S (length splits') = length (detectedSplits st)).
Proof.
  intros Hcov. split; intros Hi splits'; subst splits'.
  - destruct (mergeWithPrevious_splits st index Hi) as (a & b & Ha & Hb & ->).
    cbn [snd]. rewrite regenerate_detectedSplits. cbn [detectedSplits].
    destruct (coverage_merge_at _ _ a b
                (mkSplit (instrument a) (startPage a) (endPage b)
                   (pages a ++ pages b)) N Hcov Ha Hb)
      as [(_ & Hhead & Hlast) Hcov']; [done..|].
    split; [done|]. split; [|by eapply length_merged].
    eexists. rewrite (lookup_merged _ _ _ a b) by done.
    case_decide; [lia|]. case_decide; done.
  - destruct (mergeWithNext_splits st index Hi) as (a & b & Ha & Hb & ->).
    cbn [snd]. rewrite regenerate_detectedSplits. cbn [detectedSplits].
    destruct (coverage_merge_at _ _ a b
                (mkSplit (instrument b) (startPage a) (endPage b)
                   (pages a ++ pages b)) N Hcov Ha Hb)
      as [(_ & Hhead & Hlast) Hcov']; [done..|].
    split; [done|]. split; [|by eapply length_merged].
    eexists. rewrite (lookup_merged _ _ _ a b) by done.
    case_decide; [lia|]. case_decide; done.
Qed.

(** C5 (as amended). [mergeWithPrevious(0)] and [mergeWithNext(lastIndex)]
    leave the session state exactly as it was; the call returns as a
    successful merge does, without reporting a rejection. *)
Theorem merge_boundary_noop st :
  mergeWithPrevious assemble 0 st = (Finished, st)
  ∧ mergeWithNext assemble (Z.of_nat (length (detectedSplits st)) - 1) st
    = (Finished, st)
  ∧ ¬ reports_rejection (mergeWithPrevious assemble 0 st).1
  ∧ ¬ reports_rejection
        (mergeWithNext assemble (Z.of_nat (length (detectedSplits st)) - 1)
           st).1.
Proof.
  unfold mergeWithPrevious, mergeWithNext, reports_rejection.
  repeat case_decide; try done. repeat split; auto.
Qed.

(** C9. A merge at a valid index changes the split list in one place: the
    list is shorter by exactly one, and every split other than the merged
    one is a split of the old list, with its instrument, pages, start page
    and end page, in the old order. *)
Theorem merge_frame st index :
  (0 < index < Z.of_nat (length (detectedSplits st)) →
   let splits' := detectedSplits (mergeWithPrevious assemble index st).2 in
   S (length splits') = length (detectedSplits st)
   ∧ ∀ j : nat, j ≠ Z.to_nat (index - 1) →
       splits' !! j
       = detectedSplits st
           !! (if decide (j < Z.to_nat (index - 1))%nat then j else S j))
  ∧ (0 ≤ index < Z.of_nat (length (detectedSplits st)) - 1 →
     let splits' := detectedSplits (mergeWithNext assemble index st).2 in
     S (length splits') = length (detectedSplits st)
     ∧ ∀ j : nat, j ≠ Z.to_nat index →
         splits' !! j
         = detectedSplits st
             !! (if decide (j < Z.to_nat index)%nat then j else S j)).
Proof.
  split; intros Hi splits'; subst splits'.
  - destruct (mergeWithPrevious_splits st index Hi) as (a & b & Ha & Hb & ->).
    cbn [snd]. rewrite regenerate_detectedSplits. cbn [detectedSplits].
    split; [by eapply length_merged|]. intros j Hj.
    rewrite (lookup_merged _ _ _ a b) by done.
    case_decide; [done|]. by case_decide.
  - destruct (mergeWithNext_splits st index Hi) as (a & b & Ha & Hb & ->).
    cbn [snd]. rewrite regenerate_detectedSplits. cbn [detectedSplits].
    split; [by eapply length_merged|]. intros j Hj.
    rewrite (lookup_merged _ _ _ a b) by done.
    case_decide; [done|]. by case_decide.
Qed.

End MergeInvariants.

Lemma lookup_delete_next {A} (l : list A) (n j : nat) :
  j ≠ n →
  delete (S n) l !! j = l !! (if decide (j < n)%nat then j else S j).
Proof.
  intros Hj. case_decide.
  - apply list_lookup_delete_lt. lia.
  - apply list_lookup_delete_ge. lia.
Qed.

Section Outputs.

Context {Blob : Type} (assemble : list Z → option Blob).
Implicit Types (st : State Blob) (index : Z).

(** The outputs after regenerating the one at position [n], behind the
    removal of the output at [n+1]. *)
Lemma regenerate_after_delete st (i : Z) (splits : list Split) :
  0 ≤ i → (S (Z.to_nat i) < length (generatedPDFs st))%nat →
  let st' :=
    regeneratePDFForSplit assemble i
      (mkState splits (delete (S (Z.to_nat i)) (generatedPDFs st))
         (baseFilenameInput st) (currentFileName st)) in
  S (length (generatedPDFs st')) = length (generatedPDFs st)
  ∧ ∀ j : nat, j ≠ Z.to_nat i →
      generatedPDFs st' !! j
      = generatedPDFs st !! (if decide (j < Z.to_nat i)%nat then j else S j).
Proof.
  intros Hi Hn st'. subst st'.
  assert (S (length (delete (S (Z.to_nat i)) (generatedPDFs st)))
          = length (generatedPDFs st)) as Hlen.
  { rewrite length_delete by (apply lookup_lt_is_Some_2; lia). lia. }
  split.
  - rewrite regenerate_generated_length; cbn; [done | lia | lia].
  - intros j Hj. rewrite regenerate_generated_other; cbn; [|lia|lia].
    by apply lookup_delete_next.
Qed.

(** C10. When the split list and the output list have the same length, they
    still have after a merge at a valid index: the merge removes one entry
    from each, at the same position, so that every output other than the
    merged split's still stands at the index of its split. *)
Theorem merge_keeps_outputs_aligned st index :
  length (generatedPDFs st) = length (detectedSplits st) →
  (0 < index < Z.of_nat (length (detectedSplits st)) →
   let st' := (mergeWithPrevious assemble index st).2 in
   length (generatedPDFs st') = length (detectedSplits st')
   ∧ S (length (detectedSplits st')) = length (detectedSplits st)
   ∧ S (length (generatedPDFs st')) = length (generatedPDFs st)
   ∧ ∀ j : nat, j ≠ Z.to_nat (index - 1) →
       let k := if decide (j < Z.to_nat (index - 1))%nat then j else S j in
       detectedSplits st' !! j = detectedSplits st !! k
       ∧ generatedPDFs st' !! j = generatedPDFs st !! k)
  ∧ (0 ≤ index < Z.of_nat (length (detectedSplits st)) - 1 →
     let st' := (mergeWithNext assemble index st).2 in
     length (generatedPDFs st') = length (detectedSplits st')
     ∧ S (length (detectedSplits st')) = length (detectedSplits st)
     ∧ S (length (generatedPDFs st')) = length (generatedPDFs st)
     ∧ ∀ j : nat, j ≠ Z.to_nat index →
         let k := if decide (j < Z.to_nat index)%nat then j else S j in
         detectedSplits st' !! j = detectedSplits st !! k
         ∧ generatedPDFs st' !! j = generatedPDFs st !! k).
Proof.
  intros Hlen. split; intros Hi st'; subst st'.
  - destruct (mergeWithPrevious_splits assemble st index Hi)
      as (a & b & Ha & Hb & ->).
    cbn [snd]. rewrite regenerate_detectedSplits. cbn [detectedSplits].
    pose proof (length_merged (detectedSplits st) _ a b
                  (mkSplit (instrument a) (startPage a) (endPage b)
                     (pages a ++ pages b)) Ha Hb) as Hs.
    set (splits' := take _ _ ++ _ :: _) in *.
    destruct (regenerate_after_delete st (index - 1) splits')
      as [Hg Hother]; [lia..|].
    split; [lia|]. split; [done|]. split; [done|].
    intros j Hj. cbv zeta. subst splits'. split; [|by apply Hother].
    rewrite (lookup_merged _ _ _ a b) by done.
    case_decide; [done|]. by case_decide.
  - destruct (mergeWithNext_splits assemble st index Hi)
      as (a & b & Ha & Hb & ->).
    cbn [snd]. rewrite regenerate_detectedSplits. cbn [detectedSplits].
    pose proof (length_merged (detectedSplits st) _ a b
                  (mkSplit (instrument b) (startPage a) (endPage b)
                     (pages a ++ pages b)) Ha Hb) as Hs.
    set (splits' := take _ _ ++ _ :: _) in *.
    destruct (regenerate_after_delete st index splits')
      as [Hg Hother]; [lia..|].
    split; [lia|]. split; [done|]. split; [done|].
    intros j Hj. cbv zeta. subst splits'. split; [|by apply Hother].
    rewrite (lookup_merged _ _ _ a b) by done.
    case_decide; [done|]. by case_decide.
Qed.

End Outputs.

(** ** Renaming a split *)

Section Rename.

Context {Blob : Type} (assemble : list Z → option Blob).
Implicit Types (st : State Blob) (index : Z).

(** C6 (as amended). When the typed name is non-empty after trimming,
    renaming the split at a valid index sets its instrument to the trimmed
    name (the name itself when it has no surrounding whitespace), changes
    the pages, start page and end page of no split and leaves every other
    split as it was; when the name trims to empty the session stays exactly
    as it was, the previous name included. *)
Theorem rename_sets_trimmed_name st index (value : jsstring) :
  (trim value ≠ [] →
   ∀ s, js_get (detectedSplits st) index = Some s →
     ∃ st',
       handleInstrumentNameChange assemble index value st = (Finished, st')
       ∧ instrument <$> js_get (detectedSplits st') index = Some (trim value)
       ∧ (trim value = value →
          instrument <$> js_get (detectedSplits st') index = Some value)
       ∧ (λ s, (pages s, startPage s, endPage s)) <$> detectedSplits st'
         = (λ s, (pages s, startPage s, endPage s)) <$> detectedSplits st
       ∧ ∀ j : nat, j ≠ Z.to_nat index →
           detectedSplits st' !! j = detectedSplits st !! j)
  ∧ (trim value = [] →
     handleInstrumentNameChange assemble index value st = (Finished, st)).
Proof.
  unfold handleInstrumentNameChange. split.
  - intros Hname s Hs. rewrite Hs.
    destruct (trim value) as [|c name] eqn:Htrim; [done|].
    eexists. split; [reflexivity|].
    rewrite regenerate_detectedSplits. cbn [detectedSplits set_detectedSplits].
    apply js_get_Some in Hs as [Hi Hs].
    assert (js_get (<[Z.to_nat index:=mkSplit (c :: name) (startPage s)
                        (endPage s) (pages s)]> (detectedSplits st)) index
            = Some (mkSplit (c :: name) (startPage s) (endPage s) (pages s)))
      as Hget.
    { apply js_get_Some. split; [done|].
      apply list_lookup_insert_eq. by eapply lookup_lt_Some. }
    rewrite Hget. cbn. split; [done|]. split; [by intros <-|]. split.
    + rewrite list_fmap_insert. cbn. apply list_insert_id.
      by rewrite list_lookup_fmap, Hs.
    + intros j Hj. by apply list_lookup_insert_ne.
  - by intros ->.
Qed.

End Rename.

(** C6 as stated fails: a name typed with surrounding whitespace is not
    stored as it is, but trimmed. *)
Lemma rename_trims_name :
  let st' :=
    (handleInstrumentNameChange copy_pages 0 (lit " Flugelhorn ")
       cornet_session).2 in
  trim (lit " Flugelhorn ") ≠ []
  ∧ instrument <$> js_get (detectedSplits st') 0 = Some (lit "Flugelhorn")
  ∧ instrument <$> js_get (detectedSplits st') 0 ≠ Some (lit " Flugelhorn ").
Proof.
  vm_compute. split; [discriminate | split; [reflexivity | discriminate]].
Qed.

(** C5 as stated fails: on the boundary the call returns exactly as a
    successful merge does, so that no rejection reaches the caller. *)
Lemma merge_boundary_not_reported :
  (mergeWithPrevious copy_pages 0 cornet_session).1
  = (mergeWithPrevious copy_pages 1 cornet_session).1
  ∧ (mergeWithNext copy_pages 1 cornet_session).1
    = (mergeWithNext copy_pages 0 cornet_session).1
  ∧ ¬ ((mergeWithPrevious copy_pages 0 cornet_session).2 = cornet_session
       ∧ reports_rejection (mergeWithPrevious copy_pages 0 cornet_session).1)
  ∧ ¬ ((mergeWithNext copy_pages 1 cornet_session).2 = cornet_session
       ∧ reports_rejection (mergeWithNext copy_pages 1 cornet_session).1).
Proof.
  split; [reflexivity|]. split; [reflexivity|].
  split; intros [_ Hreported]; by apply Hreported.
Qed.

(** ** The segmenter *)

Lemma segment_from_nonempty open labels : segment_from open labels ≠ [].
Proof.
  revert open. induction labels as [|l ls IH]; intros open; cbn; [done|].
  case_decide; [apply IH | done].
Qed.

Lemma segment_from_pages open labels :
  concat (pages <$> segment_from open labels)
  = pages open ++ (Label.pageIndex <$> labels).
Proof.
  revert open. induction labels as [|l ls IH]; intros open; cbn.
  - by rewrite !(right_id_L [] (++)).
  - case_decide; cbn; rewrite IH; cbn; [|done].
    by rewrite <- (assoc_L (++)).
Qed.

Lemma segment_from_labelled open labels :
  mjoin (labelled_pages <$> segment_from open labels)
  = labelled_pages open ++ (labelled <$> labels).
Proof.
  revert open. induction labels as [|l ls IH]; intros open; cbn.
  - by rewrite !(right_id_L [] (++)).
  - case_decide as Heq; cbn; rewrite IH; unfold labelled_pages; cbn; [|done].
    rewrite fmap_app, <- (assoc_L (++)). cbn. unfold labelled. by rewrite Heq.
Qed.

Lemma segment_from_head open labels :
  instrument <$> head (segment_from open labels) = Some (instrument open).
Proof.
  revert open. induction labels as [|l ls IH]; intros open; cbn; [done|].
  case_decide; [by rewrite IH | done].
Qed.

Lemma adjacent_differ_cons {A} (x : A) (l : list A) :
  (∀ y, head l = Some y → x ≠ y) → adjacent_differ l →
  adjacent_differ (x :: l).
Proof. destruct l as [|y l]; [done|]. intros H ?. split; [by apply H | done]. Qed.

Lemma head_fmap {A B} (f : A → B) (l : list A) :
  head (f <$> l) = f <$> head l.
Proof. by destruct l. Qed.

Lemma segment_from_differ open labels :
  adjacent_differ (instrument <$> segment_from open labels).
Proof.
  revert open. induction labels as [|l ls IH]; intros open; cbn; [done|].
  case_decide as Hne; [apply IH|].
  cbn. apply adjacent_differ_cons; [|apply IH].
  intros y Hy. rewrite head_fmap in Hy.
  rewrite segment_from_head in Hy. cbn in Hy. by simplify_eq.
Qed.

Lemma segment_from_ends open labels :
  head (pages open) = Some (startPage open) →
  last (pages open) = Some (endPage open) →
  Forall (λ s, head (pages s) = Some (startPage s)
               ∧ last (pages s) = Some (endPage s))
    (segment_from open labels).
Proof.
  revert open. induction labels as [|l ls IH]; intros open Hh Hl; cbn.
  - by repeat constructor.
  - case_decide.
    + apply IH; cbn; [|apply last_snoc].
      apply head_app_Some. by left.
    + constructor; [done|]. by apply IH.
Qed.

(** The splits of a sequence of labels numbered [1..N] satisfy the coverage
    invariant of an edit session. *)
Lemma segment_coverage (labels : list Label.t) :
  Label.pageIndex <$> labels = seqZ 1 (Z.of_nat (length labels)) →
  coverage (segment labels) (Z.of_nat (length labels)).
Proof.
  intros Hidx.
  assert (concat (pages <$> segment labels)
          = seqZ 1 (Z.of_nat (length labels))) as Hcat.
  { rewrite <- Hidx. destruct labels as [|l ls]; [done|].
    cbn [segment]. by rewrite segment_from_pages. }
  split; [|done]. apply Forall_lookup_2. intros i s Hs.
  assert (head (pages s) = Some (startPage s)
          ∧ last (pages s) = Some (endPage s)) as Hends.
  { destruct labels as [|l ls]; [done|].
    eapply (Forall_lookup_1 _ _ _ _ (segment_from_ends (opened l) ls
                                       eq_refl eq_refl)), Hs. }
  split; [|done].
  rewrite <- (take_drop_middle _ _ _ Hs), fmap_app, concat_app in Hcat.
  cbn in Hcat. eapply contiguous_infix. rewrite Hcat. apply contiguous_seqZ.
Qed.

(** Instrument strings are compared as they are: a difference in case
    starts a new split. *)
Example segment_case_sensitive :
  segment demo_labels
  = [mkSplit (lit "Cornet") 1 2 [1; 2]; mkSplit (lit "cornet") 3 3 [3];
     mkSplit (lit "Trombone") 4 4 [4]].
Proof. vm_compute. reflexivity. Qed.

(** The pages at which the splits of a pass start: the open split's start
    page, and the page of every label whose instrument differs from the one
    before it, the open split's instrument standing before the first. *)
Lemma segment_from_starts open labels (p : Z) :
  p ∈ startPage <$> segment_from open labels
  ↔ p = startPage open
    ∨ ∃ (i : nat) l' x,
        labels !! i = Some l'
        ∧ (instrument open :: (Label.instrument <$> labels)) !! i = Some x
        ∧ Label.instrument l' ≠ x
        ∧ p = Label.pageIndex l'.
Proof.
  revert open. induction labels as [|l ls IH]; intros open;
    cbn [segment_from].
  - rewrite list_fmap_singleton, list_elem_of_singleton.
    split; [by left|]. by intros [->|(i & l' & x & Hl & _)].
  - case_decide as Heq.
    + rewrite IH. cbn [instrument startPage]. split.
      * intros [->|(i & l' & x & Hl & Hx & Hne & ->)]; [by left|].
        right. exists (S i), l', x. cbn. by rewrite Heq.
      * intros [->|(i & l' & x & Hl & Hx & Hne & ->)]; [by left|].
        destruct i as [|i]; cbn in Hl, Hx; simplify_eq.
        right. exists i, l', x. by rewrite <- Heq.
    + rewrite fmap_cons, elem_of_cons, IH. cbn. split.
      * intros [->|[->|(i & l' & x & Hl & Hx & Hne & ->)]]; [by left|..].
        -- right. by exists 0%nat, l, (instrument open).
        -- right. by exists (S i), l', x.
      * intros [->|(i & l' & x & Hl & Hx & Hne & ->)]; [by left|].
        destruct i as [|i]; cbn in Hl, Hx; simplify_eq.
        -- right. by left.
        -- right. right. by exists i, l', x.
Qed.

(** In a sequence of labels numbered [1..N] a label's page index tells its
    position. *)
Lemma label_position (labels : list Label.t) (i : nat) (l : Label.t) :
  Label.pageIndex <$> labels = seqZ 1 (Z.of_nat (length labels)) →
  labels !! i = Some l → Label.pageIndex l = 1 + Z.of_nat i.
Proof.
  intros Hidx Hl.
  assert ((Label.pageIndex <$> labels) !! i = Some (Label.pageIndex l)) as H
    by by rewrite list_lookup_fmap, Hl.
  rewrite Hidx in H. by apply lookup_seqZ in H as [-> _].
Qed.

Lemma segment_boundaries (labels : list Label.t) (i : nat) (l l' : Label.t) :
  Label.pageIndex <$> labels = seqZ 1 (Z.of_nat (length labels)) →
  labels !! i = Some l → labels !! S i = Some l' →
  (∃ s, s ∈ segment labels ∧ startPage s = Label.pageIndex l')
  ↔ Label.instrument l' ≠ Label.instrument l.
Proof.
  intros Hidx Hl Hl'.
  pose proof (label_position labels _ _ Hidx Hl') as Hp'.
  destruct labels as [|l0 ls]; [done|]. cbn [segment].
  transitivity (Label.pageIndex l' ∈ startPage <$> segment_from (opened l0) ls).
  { rewrite list_elem_of_fmap. split; intros (s & ? & ?); by exists s. }
  rewrite segment_from_starts. cbn [opened startPage instrument].
  change (Label.instrument l0 :: (Label.instrument <$> ls))
    with (Label.instrument <$> l0 :: ls).
  split.
  - intros [Hfirst|(j & l'' & x & Hj & Hx & Hne & Hpage)].
    + pose proof (label_position (l0 :: ls) 0 l0 Hidx eq_refl). lia.
    + pose proof (label_position (l0 :: ls) (S j) l'' Hidx Hj).
      assert (j = i) as -> by lia.
      rewrite list_lookup_fmap, Hl in Hx.
      change (ls !! i = Some l') in Hl'. change (ls !! i = Some l'') in Hj.
      cbn in Hx. by simplify_eq.
  - intros Hne. right. exists i, l', (Label.instrument l).
    by rewrite list_lookup_fmap, Hl.
Qed.

(** C7. For a non-empty sequence of [N] resolved labels, numbered [1..N],
    [segment] returns at least one split, and the splits' pages
    concatenated in order are exactly [1..N]. Every split has pages, which
    are contiguous, begin at its start page and end at its end page, and a
    new split is started exactly where the instrument string of a page
    differs (code unit by code unit) from that of the split being
    accumulated: the first split starts at the first page, a later page
    starts a split if and only if its instrument differs from that of the
    page before it, every page lies in a split of its own instrument, and
    neighbouring splits differ in their instrument. *)
Theorem segment_covers (labels : list Label.t) :
  labels ≠ [] →
  Label.pageIndex <$> labels = seqZ 1 (Z.of_nat (length labels)) →
  segment labels ≠ []
  ∧ concat (pages <$> segment labels) = seqZ 1 (Z.of_nat (length labels))
  ∧ Forall split_ok (segment labels)
  ∧ startPage <$> head (segment labels) = Some 1
  ∧ (∀ (i : nat) (l l' : Label.t),
       labels !! i = Some l → labels !! S i = Some l' →
       (∃ s, s ∈ segment labels ∧ startPage s = Label.pageIndex l')
       ↔ Label.instrument l' ≠ Label.instrument l)
  ∧ mjoin (labelled_pages <$> segment labels) = labelled <$> labels
  ∧ adjacent_differ (instrument <$> segment labels).
Proof.
  intros Hne Hidx.
  pose proof (segment_coverage labels Hidx) as [Hok Hcat].
  split; [destruct labels; [done | apply segment_from_nonempty]|].
  split; [done|]. split; [done|]. split.
  { destruct labels as [|l ls]; [done|]. cbn [segment].
    pose proof (label_position (l :: ls) 0 l Hidx eq_refl) as Hfirst.
    pose proof (segment_from_head (opened l) ls) as Hhead.
    pose proof (segment_from_ends (opened l) ls eq_refl eq_refl) as Hends.
    pose proof (segment_from_pages (opened l) ls) as Hpages.
    destruct (segment_from (opened l) ls) as [|s ss]; [done|].
    apply Forall_cons in Hends as [[Hs _] _]. cbn in Hpages |- *.
    destruct (pages s) as [|q qs]; [done|]. cbn in Hs, Hpages.
    simplify_eq. f_equal. lia. }
  split; [intros i l l'; by apply segment_boundaries|].
  destruct labels as [|l ls]; [done|].
  split; [|apply segment_from_differ].
  cbn [segment]. by rewrite segment_from_labelled.
Qed.

(** The first split of a pass is the open split, with more pages. *)
Lemma segment_from_first open labels :
  ∃ first others more,
    segment_from open labels = first :: others
    ∧ instrument first = instrument open
    ∧ startPage first = startPage open
    ∧ pages first = pages open ++ more.
Proof.
  revert open. induction labels as [|l ls IH]; intros open; cbn.
  - exists open, [], []. by rewrite (right_id_L [] (++)).
  - case_decide.
    + destruct (IH (mkSplit (instrument open) (startPage open)
                      (Label.pageIndex l) (pages open ++ [Label.pageIndex l])))
        as (first & others & more & -> & Hi & Hs & Hp).
      exists first, others, (Label.pageIndex l :: more).
      cbn in Hi, Hs, Hp. by rewrite Hp, <- (assoc_L (++)).
    + eexists open, _, []. by rewrite (right_id_L [] (++)).
Qed.

(** ** The label resolver *)

Section ResolverProperties.

Context (catalog : list (jsstring * jsstring)).
Context (similarity : jsstring → jsstring → Z) (threshold : Z).

(** The label of a page with text depends on the previous label only in its
    page index. *)
Lemma resolve_present (text : jsstring) (previous : Label.t) :
  resolve catalog similarity threshold (Some text) (Some previous)
  = Label.mk (Label.pageIndex previous + 1)
      (Label.instrument (resolve catalog similarity threshold (Some text) None))
      (Label.matched (resolve catalog similarity threshold (Some text) None)).
Proof.
  unfold resolve.
  destruct (best_match _ _ _) as [[score name]|]; [|done].
  by case_decide.
Qed.

Lemma resolve_index (raw : option jsstring) (previous : option Label.t) :
  Label.pageIndex (resolve catalog similarity threshold raw previous)
  = match previous with
    | Some label => Label.pageIndex label + 1
    | None => 1
    end.
Proof.
  unfold resolve. destruct raw as [text|].
  - destruct (best_match _ _ _) as [[score name]|]; [|done].
    by case_decide.
  - by destruct previous.
Qed.

Lemma resolve_first_index (raw : option jsstring) :
  Label.pageIndex (resolve catalog similarity threshold raw None) = 1.
Proof. apply resolve_index. Qed.

(** The labels of [N] pages are numbered [1..N]. *)
Lemma resolve_pages_indices (previous : option Label.t)
    (raws : list (option jsstring)) :
  Label.pageIndex
    <$> resolve_pages catalog similarity threshold previous raws
  = seqZ match previous with
         | Some label => Label.pageIndex label + 1
         | None => 1
         end (Z.of_nat (length raws)).
Proof.
  revert previous. induction raws as [|raw raws IH]; intros previous; [done|].
  cbn [resolve_pages length]. rewrite fmap_cons, IH, resolve_index.
  rewrite (seqZ_cons _ (Z.of_nat (S _))) by lia.
  do 2 f_equal; lia.
Qed.

Lemma resolve_pages_length (previous : option Label.t)
    (raws : list (option jsstring)) :
  length (resolve_pages catalog similarity threshold previous raws)
  = length raws.
Proof.
  revert previous. induction raws as [|raw raws IH]; intros previous; [done|].
  cbn. by rewrite IH.
Qed.

(** The splits of the resolved pages of a document satisfy the coverage
    invariant: a session starts out covered. *)
Lemma segment_resolved_coverage (raws : list (option jsstring)) :
  coverage (segment (resolve_pages catalog similarity threshold None raws))
    (Z.of_nat (length raws)).
Proof.
  rewrite <- (resolve_pages_length None raws). apply segment_coverage.
  by rewrite resolve_pages_indices, resolve_pages_length.
Qed.

(** C8. A page without text that has a preceding resolved page is
    resolved to that page's instrument and matched flag, so that two pages
    with text of different instruments, with two pages without text between
    them, segment into two splits, the first over the pages 1, 2, 3 and
    the second over the page 4 (as the labels ["Cornet", None, None,
    "Trombone"] do); a first page without text is resolved as unmatched
    with the empty instrument, and the segmenter keeps it, as page 1 of the
    first split. *)
Theorem continuation_rule :
  (∀ previous : Label.t,
     Label.instrument
       (resolve catalog similarity threshold None (Some previous))
     = Label.instrument previous
     ∧ Label.matched
         (resolve catalog similarity threshold None (Some previous))
       = Label.matched previous)
  ∧ (∀ text1 text4 : jsstring,
       let a :=
         Label.instrument
           (resolve catalog similarity threshold (Some text1) None) in
       let b :=
         Label.instrument
           (resolve catalog similarity threshold (Some text4) None) in
       a ≠ b →
       segment
         (resolve_pages catalog similarity threshold None
            [Some text1; None; None; Some text4])
       = [mkSplit a 1 3 [1; 2; 3]; mkSplit b 4 4 [4]])
  ∧ (Label.instrument (resolve catalog similarity threshold None None)
     = lit ""
     ∧ Label.matched (resolve catalog similarity threshold None None)
       = false)
  ∧ (∀ rest : list (option jsstring),
       ∃ first others,
         segment (resolve_pages catalog similarity threshold None
                    (None :: rest))
         = first :: others
         ∧ instrument first = lit ""
         ∧ head (pages first) = Some 1).
Proof.
  split; [done|]. split; [|split; [done|]].
  - intros text1 text4 a b Hab.
    cbn [resolve_pages]. rewrite resolve_present.
    pose proof (resolve_first_index (Some text1)) as Hidx.
    destruct (resolve _ _ _ (Some text1) None) as [i1 a' m1] eqn:H1.
    cbn in Hidx, a. subst i1 a.
    cbn [resolve segment segment_from Label.pageIndex
           Label.instrument Label.matched instrument startPage endPage pages].
    fold b. rewrite !decide_True by done. rewrite decide_False by done.
    reflexivity.
  - intros rest. cbn [resolve_pages resolve segment].
    set (open := opened _). set (labels := resolve_pages _ _ _ _ _).
    destruct (segment_from_first open labels)
      as (first & others & more & -> & Hi & _ & Hp).
    exists first, others. split; [done|]. split; [done|]. by rewrite Hp.
Qed.

End ResolverProperties.

(** ** The theorems at work on the sessions above *)

Lemma mergeWithPrevious_merges_cornets :
  (0 < 1
   ∧ js_get (detectedSplits cornet_session) (1 - 1) = Some cornet1
   ∧ js_get (detectedSplits cornet_session) 1 = Some cornet2)
  ∧ ∃ st' merged,
      mergeWithPrevious copy_pages 1 cornet_session = (Finished, st')
      ∧ js_get (detectedSplits st') (1 - 1) = Some merged
      ∧ instrument merged = instrument cornet1
      ∧ pages merged = pages cornet1 ++ pages cornet2
      ∧ endPage merged = endPage cornet2
      ∧ detectedSplits st'
        = take (Z.to_nat (1 - 1)) (detectedSplits cornet_session)
          ++ merged :: drop (Z.to_nat (1 + 1)) (detectedSplits cornet_session).
Proof.
  split; [split; [lia | split; reflexivity]|].
  apply (proj1 (mergeWithPrevious_merges copy_pages)
           cornet_session 1 cornet1 cornet2); [lia | reflexivity | reflexivity].
Defined.

Lemma mergeWithNext_merges_cornets :
  (0 < Z.of_nat (length (detectedSplits cornet_session)) - 1
   ∧ js_get (detectedSplits cornet_session) 0 = Some cornet1
   ∧ js_get (detectedSplits cornet_session) (0 + 1) = Some cornet2)
  ∧ ∃ st' merged,
      mergeWithNext copy_pages 0 cornet_session = (Finished, st')
      ∧ js_get (detectedSplits st') 0 = Some merged
      ∧ instrument merged = instrument cornet2
      ∧ pages merged = pages cornet1 ++ pages cornet2
      ∧ endPage merged = endPage cornet2
      ∧ detectedSplits st'
        = take (Z.to_nat 0) (detectedSplits cornet_session)
          ++ merged :: drop (Z.to_nat (0 + 2)) (detectedSplits cornet_session).
Proof.
  split; [split; [cbn; lia | split; reflexivity]|].
  apply (proj1 (mergeWithNext_merges copy_pages)
           cornet_session 0 cornet1 cornet2);
    [cbn; lia | reflexivity | reflexivity].
Defined.

Lemma brass_coverage : coverage brass 6.
Proof.
  split; [|reflexivity].
  repeat (apply Forall_cons_2 || apply Forall_nil_2);
    (split; [cbn; tauto | split; reflexivity]).
Defined.

Lemma merge_preserves_coverage_brass :
  coverage (detectedSplits brass_session) 6
  ∧ coverage (detectedSplits (mergeWithPrevious copy_pages 2 brass_session).2) 6
  ∧ S (length (detectedSplits (mergeWithPrevious copy_pages 2 brass_session).2))
    = length (detectedSplits brass_session)
  ∧ coverage (detectedSplits (mergeWithNext copy_pages 2 brass_session).2) 6
  ∧ S (length (detectedSplits (mergeWithNext copy_pages 2 brass_session).2))
    = length (detectedSplits brass_session).
Proof.
  split; [exact brass_coverage|].
  destruct (merge_preserves_coverage copy_pages brass_session 6 2
              brass_coverage) as [Hprevious Hnext].
  destruct Hprevious as (Hcov & _ & Hlen); [cbn; lia|].
  destruct Hnext as (Hcov' & _ & Hlen'); [cbn; lia|].
  exact (conj Hcov (conj Hlen (conj Hcov' Hlen'))).
Defined.

Lemma merge_frame_brass :
  (∀ j : nat, j ≠ Z.to_nat (2 - 1) →
     detectedSplits (mergeWithPrevious copy_pages 2 brass_session).2 !! j
     = detectedSplits brass_session
         !! (if decide (j < Z.to_nat (2 - 1))%nat then j else S j))
  ∧ (∀ j : nat, j ≠ Z.to_nat 2 →
       detectedSplits (mergeWithNext copy_pages 2 brass_session).2 !! j
       = detectedSplits brass_session
           !! (if decide (j < Z.to_nat 2)%nat then j else S j)).
Proof.
  destruct (merge_frame copy_pages brass_session 2) as [Hprevious Hnext].
  split.
  - apply Hprevious. cbn. lia.
  - apply Hnext. cbn. lia.
Defined.

Lemma merge_keeps_outputs_aligned_brass :
  length (generatedPDFs brass_session) = length (detectedSplits brass_session)
  ∧ length (generatedPDFs (mergeWithPrevious copy_pages 2 brass_session).2)
    = length (detectedSplits (mergeWithPrevious copy_pages 2 brass_session).2)
  ∧ length (generatedPDFs (mergeWithNext copy_pages 2 brass_session).2)
    = length (detectedSplits (mergeWithNext copy_pages 2 brass_session).2).
Proof.
  split; [reflexivity|].
  destruct (merge_keeps_outputs_aligned copy_pages brass_session 2 eq_refl)
    as [Hprevious Hnext].
  split.
  - apply Hprevious. cbn. lia.
  - apply Hnext. cbn. lia.
Defined.

Lemma rename_sets_trimmed_name_cornets :
  trim (lit "Flugelhorn ") ≠ []
  ∧ js_get (detectedSplits cornet_session) 0 = Some cornet1
  ∧ (∃ st',
       handleInstrumentNameChange copy_pages 0 (lit "Flugelhorn ")
         cornet_session = (Finished, st')
       ∧ instrument <$> js_get (detectedSplits st') 0
         = Some (trim (lit "Flugelhorn ")))
  ∧ handleInstrumentNameChange copy_pages 0 (lit "  ") cornet_session
    = (Finished, cornet_session).
Proof.
  assert (trim (lit "Flugelhorn ") ≠ []) as Hname by (vm_compute; discriminate).
  split; [exact Hname|]. split; [reflexivity|]. split.
  - destruct (proj1 (rename_sets_trimmed_name copy_pages cornet_session 0
                       (lit "Flugelhorn ")) Hname cornet1 eq_refl)
      as (st' & Hrun & Hset & _).
    exists st'. by split.
  - apply (proj2 (rename_sets_trimmed_name copy_pages cornet_session 0
                    (lit "  "))). reflexivity.
Defined.

Lemma segment_covers_demo :
  (demo_labels ≠ []
   ∧ Label.pageIndex <$> demo_labels
     = seqZ 1 (Z.of_nat (length demo_labels)))
  ∧ segment demo_labels ≠ []
  ∧ concat (pages <$> segment demo_labels)
    = seqZ 1 (Z.of_nat (length demo_labels))
  ∧ Forall split_ok (segment demo_labels)
  ∧ startPage <$> head (segment demo_labels) = Some 1
  ∧ (∀ (i : nat) (l l' : Label.t),
       demo_labels !! i = Some l → demo_labels !! S i = Some l' →
       (∃ s, s ∈ segment demo_labels ∧ startPage s = Label.pageIndex l')
       ↔ Label.instrument l' ≠ Label.instrument l)
  ∧ mjoin (labelled_pages <$> segment demo_labels) = labelled <$> demo_labels
  ∧ adjacent_differ (instrument <$> segment demo_labels).
Proof.
  split; [split; [discriminate | reflexivity]|].
  apply (segment_covers demo_labels); [discriminate | reflexivity].
Defined.

Lemma continuation_rule_cornet_trombone :
  Label.instrument (resolve demo_catalog exact_similarity 1
                      (Some (lit "Cornet")) None)
  ≠ Label.instrument (resolve demo_catalog exact_similarity 1
                        (Some (lit "Trombone")) None)
  ∧ segment
      (resolve_pages demo_catalog exact_similarity 1 None
         [Some (lit "Cornet"); None; None; Some (lit "Trombone")])
    = [mkSplit (lit "Cornet") 1 3 [1; 2; 3]; mkSplit (lit "Trombone") 4 4 [4]].
Proof.
  assert (Label.instrument (resolve demo_catalog exact_similarity 1
                              (Some (lit "Cornet")) None)
          ≠ Label.instrument (resolve demo_catalog exact_similarity 1
                                (Some (lit "Trombone")) None)) as Hdiffer
    by (vm_compute; discriminate).
  split; [exact Hdiffer|].
  exact (proj1 (proj2 (continuation_rule demo_catalog exact_similarity 1))
           (lit "Cornet") (lit "Trombone") Hdiffer).
Defined.

(** * Further properties of the application *)

(** ** File names *)

Lemma is_hyphen_spec (c : char) : is_hyphen c = true ↔ c = hyphen.
Proof. unfold is_hyphen. apply N.eqb_eq. Qed.

Lemma hyphen_not_space : is_space hyphen = false.
Proof. reflexivity. Qed.

Lemma hyphenate_runs_Forall (P : char → Prop) cls in_run s :
  P hyphen → Forall (λ c, cls c = false → P c) s →
  Forall P (hyphenate_runs cls in_run s).
Proof.
  intros Hh Hs. revert in_run.
  induction Hs as [|c t Hc Ht IH]; intros in_run; cbn; [done|].
  destruct (cls c) eqn:Hcls.
  - destruct in_run; [apply IH | constructor; [done | apply IH]].
  - constructor; [by apply Hc | apply IH].
Qed.

Lemma hyphenate_hyphens_no_double in_run s :
  no_double_hyphen (hyphenate_runs is_hyphen in_run s)
  ∧ (in_run = true → head (hyphenate_runs is_hyphen in_run s) ≠ Some hyphen).
Proof.
  revert in_run. induction s as [|c t IH]; intros in_run; cbn; [done|].
  destruct (is_hyphen c) eqn:Hc.
  - destruct in_run; [apply IH|].
    destruct (IH true) as [Hnd Hhead]. split; [|done].
    destruct (hyphenate_runs is_hyphen true t) as [|d u] eqn:Hrest; [done|].
    split; [|done]. intros [_ ->]. by apply Hhead.
  - assert (c ≠ hyphen) as Hne.
    { intros Heq. apply is_hyphen_spec in Heq. congruence. }
    destruct (IH false) as [Hnd _]. split; [|by intros _ [=]].
    destruct (hyphenate_runs is_hyphen false t) as [|d u] eqn:Hrest; [done|].
    split; [|done]. by intros [? _].
Qed.

Lemma hyphenate_runs_id cls s :
  Forall (λ c, cls c = false) s → hyphenate_runs cls false s = s.
Proof.
  induction 1 as [|c t Hc Ht IH]; cbn; [done|]. by rewrite Hc, IH.
Qed.

Lemma hyphenate_hyphens_id s :
  no_double_hyphen s →
  hyphenate_runs is_hyphen false s = s
  ∧ (head s ≠ Some hyphen → hyphenate_runs is_hyphen true s = s).
Proof.
  induction s as [|c t IH]; [done|]. intros Hnd.
  assert (no_double_hyphen t) as Hnd' by (destruct t; [done | apply Hnd]).
  destruct (IH Hnd') as [IHf IHt]. cbn.
  destruct (is_hyphen c) eqn:Hc.
  - apply is_hyphen_spec in Hc as ->.
    assert (head t ≠ Some hyphen) as Hhead.
    { destruct t as [|d u]; [done|]. intros [= ->]. by apply Hnd. }
    split; [by rewrite IHt | by intros []].
  - by rewrite IHf.
Qed.

Lemma filter_id {A} (f : A → bool) (l : list A) :
  Forall (λ x, f x = true) l → List.filter f l = l.
Proof. induction 1 as [|x l Hx Hl IH]; cbn; [done|]. by rewrite Hx, IH. Qed.

Lemma filter_none {A} (f : A → bool) (l : list A) :
  Forall (λ x, f x = false) l → List.filter f l = [].
Proof. induction 1 as [|x l Hx Hl IH]; cbn; [done|]. by rewrite Hx. Qed.

Lemma Forall_filter_bool {A} (f : A → bool) (l : list A) :
  Forall (λ x, f x = true) (List.filter f l).
Proof.
  induction l as [|x l IH]; cbn; [done|].
  destruct (f x) eqn:Hx; [by constructor | done].
Qed.

Lemma sanitized_filename_chars instrument :
  let sanitized :=
    sanitize_keeping (λ c, is_word c || is_space c || is_hyphen c)
      instrument in
  Forall (λ c, is_filename_char c = true) sanitized
  ∧ no_double_hyphen sanitized.
Proof.
  cbv zeta. unfold sanitize_keeping.
  split; [|apply hyphenate_hyphens_no_double].
  apply hyphenate_runs_Forall; [done|].
  eapply Forall_impl.
  - apply (hyphenate_runs_Forall
             (λ c, is_space c = false ∧ is_filename_char c = true));
      [done|].
    eapply Forall_impl; [apply Forall_filter_bool|].
    intros c Hkeep Hspace. cbn beta in Hkeep. split; [done|].
    unfold is_filename_char. rewrite Hspace in Hkeep.
    by destruct (is_word c).
  - by intros c [_ ?] _.
Qed.

(** X1. The part of a file name between the base name's hyphen and [.pdf]
    is made of ASCII letters, digits, underscores and hyphens only, and no
    two hyphens stand side by side in it. *)
Theorem generateFilename_safe (base instrument : jsstring) :
  ∃ sanitized,
    generateFilename base instrument
    = base ++ lit "-" ++ sanitized ++ lit ".pdf"
    ∧ Forall (λ c, is_filename_char c = true) sanitized
    ∧ no_double_hyphen sanitized.
Proof.
  eexists. split; [apply generateFilename_keeping|].
  apply sanitized_filename_chars.
Qed.

(** X2. An instrument name made of ASCII letters, digits, underscores and
    single hyphens goes into the file name as it is, capitals included. *)
Theorem generateFilename_plain (base instrument : jsstring) :
  Forall (λ c, is_filename_char c = true) instrument →
  no_double_hyphen instrument →
  generateFilename base instrument
  = base ++ lit "-" ++ instrument ++ lit ".pdf".
Proof.
  intros Hchars Hnd. rewrite generateFilename_keeping.
  unfold deriveFilename_keeping, sanitize_keeping. do 2 f_equal.
  rewrite filter_id.
  - rewrite (hyphenate_runs_id is_space);
      [by rewrite (proj1 (hyphenate_hyphens_id _ Hnd))|].
    eapply Forall_impl; [exact Hchars|]. intros c Hc.
    unfold is_filename_char in Hc.
    destruct (is_space c) eqn:Hs; [|done]. exfalso.
    destruct (is_hyphen c) eqn:Hh.
    + apply is_hyphen_spec in Hh as ->. discriminate.
    + rewrite orb_false_r in Hc. revert Hs Hc.
      unfold is_space, is_word, is_letter, is_upper, is_lower, is_digit,
        in_range, underscore.
      rewrite !orb_true_iff, !andb_true_iff, !N.leb_le, !N.eqb_eq. lia.
  - eapply Forall_impl; [exact Hchars|]. intros c Hc.
    unfold is_filename_char in Hc.
    destruct (is_word c), (is_hyphen c), (is_space c); done.
Qed.

(** X3. An instrument name without any letter, digit, underscore,
    whitespace or hyphen, the empty name among them, leaves nothing behind
    the base name's hyphen: all such splits get the file name
    [base-.pdf]. *)
Theorem generateFilename_nothing_left (base instrument : jsstring) :
  Forall (λ c, is_word c || is_space c || is_hyphen c = false) instrument →
  generateFilename base instrument = base ++ lit "-.pdf".
Proof.
  intros Hnone. rewrite generateFilename_keeping.
  unfold deriveFilename_keeping, sanitize_keeping.
  by rewrite filter_none.
Qed.

(** ** Trimming *)

Lemma trim_start_head s c :
  head (trim_start s) = Some c → is_space c = false.
Proof.
  induction s as [|d t IH]; [done|]. cbn.
  destruct (is_space d) eqn:Hd; [done|]. cbn. by intros [= <-].
Qed.

Lemma trim_start_suffix s :
  ∃ l, s = l ++ trim_start s ∧ Forall (λ c, is_space c = true) l.
Proof.
  induction s as [|d t (l & Hl & Hsp)]; [by exists []|]. cbn.
  destruct (is_space d) eqn:Hd.
  - exists (d :: l). split; [by rewrite Hl at 1 | by constructor].
  - by exists [].
Qed.

Lemma trim_end_prefix s :
  ∃ r, s = trim_end s ++ r ∧ Forall (λ c, is_space c = true) r.
Proof.
  destruct (trim_start_suffix (reverse s)) as (l & Hl & Hsp).
  exists (reverse l). split.
  - unfold trim_end. rewrite <- reverse_app, <- Hl.
    by rewrite reverse_involutive.
  - by apply Forall_reverse.
Qed.

Lemma trim_end_last s c : last (trim_end s) = Some c → is_space c = false.
Proof.
  unfold trim_end. rewrite last_reverse. apply trim_start_head.
Qed.

Lemma trim_tidy s : trim s ≠ [] → tidy (trim s).
Proof.
  intros Hne. split; [done|]. split; [|apply trim_end_last].
  intros c Hc. unfold trim in *.
  destruct (trim_end_prefix (trim_start s)) as (r & Hr & _).
  apply (trim_start_head s). rewrite Hr.
  apply head_app_Some. by left.
Qed.

(** ** Edits outside the list *)

Section EditsOutside.

Context {Blob : Type} (assemble : list Z → option Blob).
Implicit Types (st : State Blob) (index : Z).

Lemma js_get_outside {A} (arr : list A) (i : Z) :
  ¬ (0 ≤ i < Z.of_nat (length arr)) → js_get arr i = None.
Proof.
  intros Hi. unfold js_get. case_decide; [|done].
  apply lookup_ge_None. lia.
Qed.

Lemma mergeWithPrevious_outside index st :
  ¬ (0 < index < Z.of_nat (length (detectedSplits st))) →
  mergeWithPrevious assemble index st
  = (if decide (index = 0) then Finished else TypeError, st).
Proof.
  intros Hi. unfold mergeWithPrevious. case_decide; [done|].
  rewrite (js_get_outside _ index) by lia. done.
Qed.

Lemma mergeWithNext_outside index st :
  ¬ (0 ≤ index < Z.of_nat (length (detectedSplits st)) - 1) →
  mergeWithNext assemble index st
  = (if decide (index = Z.of_nat (length (detectedSplits st)) - 1)
     then Finished else TypeError, st).
Proof.
  intros Hi. unfold mergeWithNext. case_decide; [done|].
  rewrite (js_get_outside _ index) by lia. done.
Qed.

(** X4. An edit at an index that admits none changes nothing in the
    session. A merge up outside [1..length-1] returns silently at index 0
    and ends in a [TypeError] anywhere else; a merge down outside
    [0..length-2] returns silently at the last index and ends in a
    [TypeError] anywhere else, as [mergeWithNext(0)] does on an empty list;
    a rename to a non-blank name at an index outside the list ends in a
    [TypeError]. *)
Theorem edits_outside_change_nothing st index :
  (¬ (0 < index < Z.of_nat (length (detectedSplits st))) →
   mergeWithPrevious assemble index st
   = (if decide (index = 0) then Finished else TypeError, st))
  ∧ (¬ (0 ≤ index < Z.of_nat (length (detectedSplits st)) - 1) →
     mergeWithNext assemble index st
     = (if decide (index = Z.of_nat (length (detectedSplits st)) - 1)
        then Finished else TypeError, st))
  ∧ (∀ value : jsstring,
       ¬ (0 ≤ index < Z.of_nat (length (detectedSplits st))) →
       trim value ≠ [] →
       handleInstrumentNameChange assemble index value st = (TypeError, st)).
Proof.
  split; [apply mergeWithPrevious_outside|].
  split; [apply mergeWithNext_outside|].
  intros value Hi Hname. unfold handleInstrumentNameChange.
  rewrite js_get_outside by done. by destruct (trim value).
Qed.

(** The split list after a rename. *)
Lemma rename_splits st index (value : jsstring) :
  detectedSplits (handleInstrumentNameChange assemble index value st).2
  = detectedSplits st
  ∨ ∃ s, detectedSplits st !! Z.to_nat index = Some s
         ∧ trim value ≠ []
         ∧ detectedSplits (handleInstrumentNameChange assemble index value st).2
           = <[Z.to_nat index :=
                 mkSplit (trim value) (startPage s) (endPage s) (pages s)]>
               (detectedSplits st).
Proof.
  unfold handleInstrumentNameChange.
  destruct (trim value) as [|c name] eqn:Hname; [by left|].
  destruct (js_get _ _) as [s|] eqn:Hs; [|by left].
  right. exists s. apply js_get_Some in Hs as [_ Hs].
  split; [done|]. split; [done|].
  cbn [snd]. by rewrite regenerate_detectedSplits.
Qed.

(** X5. No edit loses, repeats or moves a page: whatever the index and the
    typed text, the pages of all splits, read in order, are the same after a
    merge up, a merge down and a rename as before. *)
Theorem edits_conserve_pages st index (value : jsstring) :
  concat (pages <$> detectedSplits (mergeWithPrevious assemble index st).2)
  = concat (pages <$> detectedSplits st)
  ∧ concat (pages <$> detectedSplits (mergeWithNext assemble index st).2)
    = concat (pages <$> detectedSplits st)
  ∧ concat
      (pages
         <$> detectedSplits
               (handleInstrumentNameChange assemble index value st).2)
    = concat (pages <$> detectedSplits st).
Proof.
  split; [|split].
  - destruct (decide (0 < index < Z.of_nat (length (detectedSplits st))))
      as [Hi|Hi]; [|by rewrite mergeWithPrevious_outside].
    destruct (mergeWithPrevious_splits assemble st index Hi)
      as (a & b & Ha & Hb & ->).
    cbn [snd]. rewrite regenerate_detectedSplits. cbn [detectedSplits].
    rewrite (split_at_pair _ _ a b Ha Hb) at 3.
    rewrite !fmap_app, !concat_app. cbn. by rewrite <- (assoc_L (++)).
  - destruct (decide (0 ≤ index < Z.of_nat (length (detectedSplits st)) - 1))
      as [Hi|Hi]; [|by rewrite mergeWithNext_outside].
    destruct (mergeWithNext_splits assemble st index Hi)
      as (a & b & Ha & Hb & ->).
    cbn [snd]. rewrite regenerate_detectedSplits. cbn [detectedSplits].
    rewrite (split_at_pair _ _ a b Ha Hb) at 3.
    rewrite !fmap_app, !concat_app. cbn. by rewrite <- (assoc_L (++)).
  - destruct (rename_splits st index value) as [->|(s & Hs & _ & ->)]; [done|].
    rewrite list_fmap_insert. cbn. rewrite list_insert_id; [done|].
    by rewrite list_lookup_fmap, Hs.
Qed.

(** X6. Tidy names stay tidy: when no split has an empty name or a name
    with whitespace at either end, none has after a rename, a merge up or a
    merge down, whatever the index and the typed text. *)
Theorem edits_keep_names_tidy st index (value : jsstring) :
  Forall (λ s, tidy (instrument s)) (detectedSplits st) →
  Forall (λ s, tidy (instrument s))
    (detectedSplits (handleInstrumentNameChange assemble index value st).2)
  ∧ Forall (λ s, tidy (instrument s))
      (detectedSplits (mergeWithPrevious assemble index st).2)
  ∧ Forall (λ s, tidy (instrument s))
      (detectedSplits (mergeWithNext assemble index st).2).
Proof.
  intros Htidy. split; [|split].
  - destruct (rename_splits st index value) as [->|(s & Hs & Hname & ->)];
      [done|].
    apply Forall_insert; [done|]. by apply trim_tidy.
  - destruct (decide (0 < index < Z.of_nat (length (detectedSplits st))))
      as [Hi|Hi]; [|by rewrite mergeWithPrevious_outside].
    destruct (mergeWithPrevious_splits assemble st index Hi)
      as (a & b & Ha & Hb & ->).
    cbn [snd]. rewrite regenerate_detectedSplits. cbn [detectedSplits].
    apply Forall_app. split; [by apply Forall_take|].
    constructor; [|by apply Forall_drop].
    apply (Forall_lookup_1 _ _ _ _ Htidy Ha).
  - destruct (decide (0 ≤ index < Z.of_nat (length (detectedSplits st)) - 1))
      as [Hi|Hi]; [|by rewrite mergeWithNext_outside].
    destruct (mergeWithNext_splits assemble st index Hi)
      as (a & b & Ha & Hb & ->).
    cbn [snd]. rewrite regenerate_detectedSplits. cbn [detectedSplits].
    apply Forall_app. split; [by apply Forall_take|].
    constructor; [|by apply Forall_drop].
    apply (Forall_lookup_1 _ _ _ _ Htidy Hb).
Qed.

End EditsOutside.

(** ** Merging up and merging down *)

Section MergeDirections.

Context {Blob : Type} (assemble : list Z → option Blob).
Implicit Types (st : State Blob) (index : Z).

(** X7. Merging a split into the one below it and merging that one into
    the split above it give the same pages: [mergeWithNext(index)] and
    [mergeWithPrevious(index+1)] leave split lists that agree in every
    split's pages, start page and end page and in every split but the
    merged one; the merged split bears the lower split's name in the first,
    the upper split's in the second. *)
Theorem merge_down_or_up st index :
  0 ≤ index → index + 1 < Z.of_nat (length (detectedSplits st)) →
  let down := detectedSplits (mergeWithNext assemble index st).2 in
  let up := detectedSplits (mergeWithPrevious assemble (index + 1) st).2 in
  (λ s, (pages s, startPage s, endPage s)) <$> down
  = (λ s, (pages s, startPage s, endPage s)) <$> up
  ∧ (∀ j : nat, j ≠ Z.to_nat index → down !! j = up !! j)
  ∧ instrument <$> down !! Z.to_nat index
    = instrument <$> detectedSplits st !! S (Z.to_nat index)
  ∧ instrument <$> up !! Z.to_nat index
    = instrument <$> detectedSplits st !! Z.to_nat index.
Proof.
  intros H0 Hlt down up. subst down up.
  destruct (mergeWithNext_splits assemble st index)
    as (a & b & Ha & Hb & ->); [lia|].
  destruct (mergeWithPrevious_splits assemble st (index + 1))
    as (a' & b' & Ha' & Hb' & ->); [lia|].
  replace (index + 1 - 1) with index in * by lia.
  simplify_eq. cbn [snd]. rewrite !regenerate_detectedSplits.
  cbn [detectedSplits].
  split; [by rewrite !fmap_app|].
  split.
  - intros j Hj. rewrite !(lookup_merged _ _ _ a b) by done.
    case_decide; [done|]. by case_decide.
  - rewrite !(lookup_merged _ _ _ a b) by done.
    case_decide; [lia|]. case_decide; [|done]. by rewrite Ha, Hb.
Qed.

End MergeDirections.

(** ** The output of an edited split *)

Lemma js_set_lookup_eq {A} (arr : list (option A)) (i : nat) (x : A) :
  js_set arr i x !! i = Some (Some x).
Proof.
  unfold js_set. case_decide.
  - by apply list_lookup_insert_eq.
  - rewrite lookup_app_r by lia. rewrite lookup_app_r; rewrite length_replicate;
      [|lia].
    by replace (i - length arr - (i - length arr))%nat with 0%nat by lia.
Qed.

Section Regeneration.

Context {Blob : Type} (assemble : list Z → option Blob).
Implicit Types (st : State Blob) (index : Z).

Lemma regenerate_success index st s blob :
  js_get (detectedSplits st) index = Some s →
  assemble ((λ p, p - 1) <$> pages s) = Some blob →
  regeneratePDFForSplit assemble index st
  = set_generatedPDFs
      (js_set (generatedPDFs st) (Z.to_nat index)
         (mkGenerated (generateFilename (baseFilename st) (instrument s))
            blob s)) st.
Proof.
  intros Hs Hblob. unfold regeneratePDFForSplit. by rewrite Hs, Hblob.
Qed.

Lemma regenerate_failure index st s :
  js_get (detectedSplits st) index = Some s →
  assemble ((λ p, p - 1) <$> pages s) = None →
  regeneratePDFForSplit assemble index st = st.
Proof.
  intros Hs Hblob. unfold regeneratePDFForSplit. by rewrite Hs, Hblob.
Qed.

Lemma regenerate_baseFilename index st :
  baseFilename (regeneratePDFForSplit assemble index st) = baseFilename st.
Proof.
  unfold baseFilename.
  by destruct (regenerate_other_fields assemble index st) as [-> ->].
Qed.

(** The output at the merged index after a merge whose merged split is
    [merged], from the old outputs [generated]. *)
Lemma merged_output st (i : Z) (splits : list Split)
    (generated : list (option (GeneratedPDF Blob))) (merged : Split) :
  0 ≤ i → splits !! Z.to_nat i = Some merged →
  let st' :=
    regeneratePDFForSplit assemble i
      (mkState splits (delete (S (Z.to_nat i)) generated)
         (baseFilenameInput st) (currentFileName st)) in
  match assemble ((λ p, p - 1) <$> pages merged) with
  | Some blob =>
      generatedPDFs st' !! Z.to_nat i
      = Some (Some (mkGenerated
                      (generateFilename (baseFilename st) (instrument merged))
                      blob merged))
  | None =>
      fmap (λ pdf, (filename pdf, blob pdf)) <$> generatedPDFs st' !! Z.to_nat i
      = fmap (λ pdf, (filename pdf, blob pdf)) <$> generated !! Z.to_nat i
  end.
Proof.
  intros Hi Hm st'. subst st'.
  assert (js_get splits i = Some merged) as Hget by by apply js_get_Some.
  destruct (assemble _) as [blob|] eqn:Hblob.
  - erewrite regenerate_success by done. cbn. apply js_set_lookup_eq.
  - erewrite regenerate_failure by done. cbn.
    by rewrite list_lookup_delete_lt by lia.
Qed.

(** X8. After a merge at a valid index the output at the merged index is
    regenerated from the merged split, with its file name and its pages
    (numbered from 0), when the document library succeeds; when the
    library fails, the file name and the document that stood at that index
    before the merge, the upper split's own, are left in place. *)
Theorem merge_regenerates_output st index :
  (0 < index < Z.of_nat (length (detectedSplits st)) →
   let st' := (mergeWithPrevious assemble index st).2 in
   ∃ merged,
     detectedSplits st' !! Z.to_nat (index - 1) = Some merged
     ∧ match assemble ((λ p, p - 1) <$> pages merged) with
       | Some blob =>
           generatedPDFs st' !! Z.to_nat (index - 1)
           = Some (Some (mkGenerated
                           (generateFilename (baseFilename st)
                              (instrument merged))
                           blob merged))
       | None =>
           fmap (λ pdf, (filename pdf, blob pdf))
             <$> generatedPDFs st' !! Z.to_nat (index - 1)
           = fmap (λ pdf, (filename pdf, blob pdf))
               <$> generatedPDFs st !! Z.to_nat (index - 1)
       end)
  ∧ (0 ≤ index < Z.of_nat (length (detectedSplits st)) - 1 →
     let st' := (mergeWithNext assemble index st).2 in
     ∃ merged,
       detectedSplits st' !! Z.to_nat index = Some merged
       ∧ match assemble ((λ p, p - 1) <$> pages merged) with
         | Some blob =>
             generatedPDFs st' !! Z.to_nat index
             = Some (Some (mkGenerated
                             (generateFilename (baseFilename st)
                                (instrument merged))
                             blob merged))
         | None =>
             fmap (λ pdf, (filename pdf, blob pdf))
               <$> generatedPDFs st' !! Z.to_nat index
             = fmap (λ pdf, (filename pdf, blob pdf))
                 <$> generatedPDFs st !! Z.to_nat index
         end).
Proof.
  split; intros Hi st'; subst st'.
  - destruct (mergeWithPrevious_splits assemble st index Hi)
      as (a & b & Ha & Hb & ->).
    cbn [snd]. rewrite regenerate_detectedSplits. cbn [detectedSplits].
    eexists. split.
    { rewrite (lookup_merged _ _ _ a b) by done.
      case_decide; [lia|]. by case_decide. }
    apply merged_output; [lia|].
    rewrite (lookup_merged _ _ _ a b) by done.
    case_decide; [lia|]. by case_decide.
  - destruct (mergeWithNext_splits assemble st index Hi)
      as (a & b & Ha & Hb & ->).
    cbn [snd]. rewrite regenerate_detectedSplits. cbn [detectedSplits].
    eexists. split.
    { rewrite (lookup_merged _ _ _ a b) by done.
      case_decide; [lia|]. by case_decide. }
    apply merged_output; [lia|].
    rewrite (lookup_merged _ _ _ a b) by done.
    case_decide; [lia|]. by case_decide.
Qed.

End Regeneration.

(** ** Outputs in step with the splits *)

Section InSync.

Context {Blob : Type} (assemble : list Z → option Blob).
Implicit Types (st : State Blob) (index : Z).



(** The loop of [handleFilenameChange()] over the indices from [k]. *)
Lemma regenerate_all_from st (k m : nat) :
  (k + m ≤ length (detectedSplits st))%nat →
  length (generatedPDFs st) = length (detectedSplits st) →
  Forall (λ s, is_Some (assemble ((λ p, p - 1) <$> pages s)))
    (detectedSplits st) →
  let st' :=
    foldl (λ st i, regeneratePDFForSplit assemble (Z.of_nat i) st) st
      (seq k m) in
  detectedSplits st' = detectedSplits st
  ∧ baseFilename st' = baseFilename st
  ∧ length (generatedPDFs st') = length (generatedPDFs st)
  ∧ (∀ (i : nat) (s : Split),
       (k ≤ i < k + m)%nat → detectedSplits st !! i = Some s →
       ∃ blob,
         assemble ((λ p, p - 1) <$> pages s) = Some blob
         ∧ generatedPDFs st' !! i
           = Some (Some (mkGenerated
                           (generateFilename (baseFilename st) (instrument s))
                           blob s)))
  ∧ (∀ i : nat, ¬ (k ≤ i < k + m)%nat →
       generatedPDFs st' !! i = generatedPDFs st !! i).
Proof.
  revert st k. induction m as [|m IH]; intros st k Hk Hlen Hlib st'.
  { subst st'. cbn. repeat split; try done. intros; lia. }
  subst st'. cbn [seq foldl].
  set (st1 := regeneratePDFForSplit assemble (Z.of_nat k) st).
  assert (detectedSplits st1 = detectedSplits st) as Hs1
    by apply regenerate_detectedSplits.
  assert (baseFilename st1 = baseFilename st) as Hb1
    by apply regenerate_baseFilename.
  assert (length (generatedPDFs st1) = length (generatedPDFs st)) as Hl1.
  { apply regenerate_generated_length; [lia|]. rewrite Nat2Z.id. lia. }
  destruct (IH st1 (S k)) as (Hs & Hb & Hl & Hin & Hout).
  { rewrite Hs1. lia. }
  { by rewrite Hl1, Hs1. }
  { by rewrite Hs1. }
  split; [by rewrite Hs|]. split; [by rewrite Hb|].
  split; [by rewrite Hl|]. split.
  - intros i s Hi Hsi. destruct (decide (i = k)) as [->|Hne].
    + rewrite Hout by lia.
      destruct (Forall_lookup_1 _ _ _ _ Hlib Hsi) as [blob Hblob].
      exists blob. split; [done|]. subst st1.
      erewrite regenerate_success; [|by rewrite js_get_Some, Nat2Z.id; split;
        [lia|] | exact Hblob].
      cbn. rewrite Nat2Z.id. apply js_set_lookup_eq.
    + rewrite <- Hb1. apply Hin; [lia|]. by rewrite Hs1.
  - intros i Hi. rewrite Hout by lia. subst st1.
    apply regenerate_generated_other; rewrite Nat2Z.id; lia.
Qed.

(** X10. [handleFilenameChange()] brings the outputs in step with the
    splits for the base name now in the input: when there is one output
    slot for each split and the document library yields a document for
    each split's pages, afterwards each split has, at its index, the output
    with its file name under the current base name and its pages; the
    splits themselves are not touched. *)
Theorem handleFilenameChange_in_sync st :
  length (generatedPDFs st) = length (detectedSplits st) →
  Forall (λ s, is_Some (assemble ((λ p, p - 1) <$> pages s)))
    (detectedSplits st) →
  detectedSplits (handleFilenameChange assemble st) = detectedSplits st
  ∧ in_sync assemble (handleFilenameChange assemble st).
Proof.
  intros Hlen Hlib. unfold handleFilenameChange.
  destruct (regenerate_all_from st 0 (length (detectedSplits st)))
    as (Hs & Hb & Hl & Hin & _); [lia | done..|].
  split; [done|]. split; [by rewrite Hl, Hs|].
  intros i s. rewrite Hs, Hb. intros Hi. apply Hin; [|done].
  apply lookup_lt_Some in Hi. lia.
Qed.

Lemma downloadAll_loop_in_step (base : jsstring) (splits : list Split)
    (generated : list (option (GeneratedPDF Blob))) :
  length generated = length splits →
  (∀ (i : nat) (s : Split),
     splits !! i = Some s →
     ∃ blob,
       assemble ((λ p, p - 1) <$> pages s) = Some blob
       ∧ generated !! i
         = Some (Some (mkGenerated (generateFilename base (instrument s))
                         blob s))) →
  ∃ downloads,
    downloadAll_loop generated = (Finished, downloads)
    ∧ snd <$> downloads
      = (λ s, generateFilename base (instrument s)) <$> splits
    ∧ Some ∘ fst <$> downloads
      = (λ s, assemble ((λ p, p - 1) <$> pages s)) <$> splits.
Proof.
  revert generated.
  induction splits as [|s splits IH]; intros [|g generated] Hlen Hall;
    simplify_eq/=.
  { by exists []. }
  destruct (Hall 0%nat s eq_refl) as (blob & Hblob & [= ->]).
  destruct (IH generated) as (downloads & -> & Hnames & Hblobs); [done|..].
  { intros i s' Hi. apply (Hall (S i)), Hi. }
  eexists. split; [reflexivity|]. cbn. by rewrite Hnames, Hblobs, Hblob.
Qed.

(** X11. With the outputs in step with the splits, [downloadAll()]
    downloads exactly one document for each split, in the order of the
    splits, each under its split's file name and holding its split's
    pages, and [downloadSingle(index)] downloads the document of the split
    at a valid index alone. *)
Theorem downloads_follow_splits st :
  in_sync assemble st →
  (∃ downloads,
     downloadAll st = (Finished, downloads)
     ∧ snd <$> downloads
       = (λ s, generateFilename (baseFilename st) (instrument s))
         <$> detectedSplits st
     ∧ Some ∘ fst <$> downloads
       = (λ s, assemble ((λ p, p - 1) <$> pages s)) <$> detectedSplits st)
  ∧ (∀ index s,
       js_get (detectedSplits st) index = Some s →
       ∃ blob,
         assemble ((λ p, p - 1) <$> pages s) = Some blob
         ∧ downloadSingle index st
           = (Finished,
              [(blob, generateFilename (baseFilename st) (instrument s))])).
Proof.
  intros [Hlen Hall]. split.
  - by apply downloadAll_loop_in_step.
  - intros index s Hs. apply js_get_Some in Hs as [Hi Hs].
    destruct (Hall _ _ Hs) as (blob & Hblob & Hout).
    exists blob. split; [done|]. unfold downloadSingle.
    by rewrite (proj2 (js_get_Some _ _ _) (conj Hi Hout)).
Qed.

End InSync.

(** ** The preview *)

Lemma contiguous_first_last (l : list Z) (a b : Z) :
  contiguous l → head l = Some a → last l = Some b →
  b = a + Z.of_nat (length l) - 1.
Proof.
  revert a. induction l as [|x [|y l] IH]; intros a Hc Ha Hb.
  - done.
  - cbn in Ha, Hb. simplify_eq. cbn. lia.
  - destruct Hc as [Hy Hc]. injection Ha as <-.
    rewrite last_cons_cons in Hb.
    rewrite (IH y Hc eq_refl Hb), Hy. cbn [length]. lia.
Qed.

Lemma displayPreview_lookup (splits : list Split) (index : nat)
    (item : SplitItem) :
  displayPreview splits !! index = Some item →
  ∃ s, splits !! index = Some s
       ∧ pageCount item = length (pages s)
       ∧ pageRange item
         = (if decide (startPage s = endPage s)
            then lit "Page " ++ number_to_string (startPage s)
            else lit "Pages " ++ number_to_string (startPage s)
                 ++ lit "-" ++ number_to_string (endPage s))
       ∧ pageLabel item
         = (if decide (length (pages s) = 1%nat) then lit "page"
            else lit "pages")
       ∧ isFirst item = bool_decide (index = 0%nat)
       ∧ isLast item
         = bool_decide (Z.of_nat index = Z.of_nat (length splits) - 1).
Proof.
  unfold displayPreview. rewrite list_lookup_imap.
  destruct (splits !! index) as [s|]; [|done]. intros [= <-].
  by exists s.
Qed.

Section Preview.

Context {Blob : Type} (assemble : list Z → option Blob).
Implicit Types (st : State Blob).

(** X12. The preview disables exactly the merge buttons whose merge would
    do nothing. For the item shown at an index, a disabled Merge Up or
    Merge Down button stands for a merge that returns with the session as
    it is, and an enabled one for a merge that goes through: it returns
    with a split list shorter by one. *)
Theorem preview_buttons st (index : nat) (item : SplitItem) :
  displayPreview (detectedSplits st) !! index = Some item →
  (isFirst item = true →
   mergeWithPrevious assemble (Z.of_nat index) st = (Finished, st))
  ∧ (isFirst item = false →
     ∃ st', mergeWithPrevious assemble (Z.of_nat index) st = (Finished, st')
            ∧ S (length (detectedSplits st')) = length (detectedSplits st))
  ∧ (isLast item = true →
     mergeWithNext assemble (Z.of_nat index) st = (Finished, st))
  ∧ (isLast item = false →
     ∃ st', mergeWithNext assemble (Z.of_nat index) st = (Finished, st')
            ∧ S (length (detectedSplits st')) = length (detectedSplits st)).
Proof.
  intros Hitem.
  destruct (displayPreview_lookup _ _ _ Hitem)
    as (s & Hs & _ & _ & _ & -> & ->).
  apply lookup_lt_Some in Hs as Hlt.
  split; [|split; [|split]].
  - intros ->%bool_decide_eq_true. by rewrite mergeWithPrevious_outside by lia.
  - intros Hne%bool_decide_eq_false.
    destruct (mergeWithPrevious_splits assemble st (Z.of_nat index))
      as (a & b & Ha & Hb & ->); [lia|].
    eexists. split; [done|]. rewrite regenerate_detectedSplits.
    by eapply length_merged.
  - intros Hlast%bool_decide_eq_true.
    rewrite mergeWithNext_outside by lia. by case_decide.
  - intros Hne%bool_decide_eq_false.
    destruct (mergeWithNext_splits assemble st (Z.of_nat index))
      as (a & b & Ha & Hb & ->); [lia|].
    eexists. split; [done|]. rewrite regenerate_detectedSplits.
    by eapply length_merged.
Qed.

End Preview.

(** X13. For a split whose pages are contiguous and cached in its start and
    end page, the preview is consistent: the page count shown is the size
    of the page range shown, and the singular forms go together, ["Page n"]
    with ["page"] for a split of one page and ["Pages a-b"] with ["pages"]
    for any other. *)
Theorem preview_range_and_count (splits : list Split) (index : nat)
    (item : SplitItem) (s : Split) :
  displayPreview splits !! index = Some item →
  splits !! index = Some s → split_ok s →
  Z.of_nat (pageCount item) = endPage s - startPage s + 1
  ∧ (pageCount item = 1%nat →
     pageRange item = lit "Page " ++ number_to_string (startPage s)
     ∧ pageLabel item = lit "page")
  ∧ (pageCount item ≠ 1%nat →
     pageRange item
     = lit "Pages " ++ number_to_string (startPage s)
       ++ lit "-" ++ number_to_string (endPage s)
     ∧ pageLabel item = lit "pages").
Proof.
  intros Hitem Hs (Hc & Hhead & Hlast).
  destruct (displayPreview_lookup _ _ _ Hitem)
    as (s' & Hs' & Hcount & Hrange & Hlabel & _).
  simplify_eq.
  pose proof (contiguous_first_last _ _ _ Hc Hhead Hlast) as Hend.
  rewrite Hcount, Hrange, Hlabel.
  split; [lia|]. split; intros Hone.
  - rewrite !decide_True by (done || lia). done.
  - rewrite !decide_False by (done || lia). done.
Qed.

(** ** The base file name *)

Lemma strip_pdf_extension_ext (stem ext : jsstring) :
  to_lower <$> ext = lit ".pdf" → strip_pdf_extension (stem ++ ext) = stem.
Proof.
  intros Hext. assert (length ext = 4%nat) as Hlen.
  { by rewrite <- (length_fmap to_lower), Hext. }
  unfold strip_pdf_extension. rewrite length_app, Hlen.
  replace (length stem + 4 - 4)%nat with (length stem) by lia.
  rewrite drop_app_length, take_app_length. by rewrite bool_decide_eq_true_2.
Qed.

Section BaseFilename.

Context {Blob : Type} (assemble : list Z → option Blob).
Implicit Types (st : State Blob) (index : Z).

(** X14. A regenerated output is named after the base name in the input,
    trimmed; when the input is blank, after the name of the uploaded file,
    without its extension when that is [.pdf] in any mix of capitals and as
    it is otherwise. *)
Theorem regenerated_output_name st index (s : Split) (blob : Blob) :
  js_get (detectedSplits st) index = Some s →
  assemble ((λ p, p - 1) <$> pages s) = Some blob →
  ∃ base,
    generatedPDFs (regeneratePDFForSplit assemble index st) !! Z.to_nat index
    = Some (Some (mkGenerated (generateFilename base (instrument s)) blob s))
    ∧ (trim (baseFilenameInput st) ≠ [] → base = trim (baseFilenameInput st))
    ∧ (trim (baseFilenameInput st) = [] →
       ∀ stem ext, currentFileName st = stem ++ ext →
                   to_lower <$> ext = lit ".pdf" → base = stem)
    ∧ (trim (baseFilenameInput st) = [] →
       to_lower <$> drop (length (currentFileName st) - 4) (currentFileName st)
       ≠ lit ".pdf" →
       base = currentFileName st).
Proof.
  intros Hs Hblob. exists (baseFilename st).
  rewrite (regenerate_success assemble index st s blob Hs Hblob). cbn.
  split; [apply js_set_lookup_eq|]. unfold baseFilename.
  split; [|split].
  - by destruct (trim (baseFilenameInput st)).
  - intros -> stem ext -> Hext. by apply strip_pdf_extension_ext.
  - intros -> Hext. unfold strip_pdf_extension.
    by rewrite bool_decide_eq_false_2.
Qed.

End BaseFilename.

(** ** Merging everything *)

Section MergeEverything.

Context {Blob : Type} (assemble : list Z → option Blob).
Implicit Types (st : State Blob).

Lemma mergeWithPrevious_1 st (a b : Split) (rest : list Split) :
  detectedSplits st = a :: b :: rest →
  detectedSplits (mergeWithPrevious assemble 1 st).2
  = mkSplit (instrument a) (startPage a) (endPage b) (pages a ++ pages b)
    :: rest.
Proof.
  intros Hst.
  rewrite (mergeWithPrevious_run assemble 1 st a b) by (by rewrite Hst).
  cbn [snd]. rewrite regenerate_detectedSplits. cbn. by rewrite Hst.
Qed.

Lemma mergeWithNext_0 st (a b : Split) (rest : list Split) :
  detectedSplits st = a :: b :: rest →
  detectedSplits (mergeWithNext assemble 0 st).2
  = mkSplit (instrument b) (startPage a) (endPage b) (pages a ++ pages b)
    :: rest.
Proof.
  intros Hst.
  rewrite (mergeWithNext_run assemble 0 st a b) by (by rewrite Hst).
  cbn [snd]. rewrite regenerate_detectedSplits. cbn. by rewrite Hst.
Qed.

Lemma merge_all_up st (first : Split) (rest : list Split) :
  detectedSplits st = first :: rest →
  detectedSplits
    (Nat.iter (length rest) (λ st, (mergeWithPrevious assemble 1 st).2) st)
  = [mkSplit (instrument first) (startPage first)
       (endPage (default first (last rest)))
       (concat (pages <$> first :: rest))].
Proof.
  revert st first. induction rest as [|b rest IH]; intros st first Hst.
  - cbn. rewrite Hst, (right_id_L [] (++)). by destruct first.
  - cbn [length]. rewrite Nat.iter_succ_r.
    rewrite (IH _ _ (mergeWithPrevious_1 st first b rest Hst)). cbn.
    rewrite <- (assoc_L (++)). do 2 f_equal.
    destruct rest as [|c rest]; [done|]. rewrite last_cons_cons.
    destruct (last (c :: rest)) eqn:Hlast; [done|]. by apply last_None in Hlast.
Qed.

Lemma merge_all_down st (first : Split) (rest : list Split) :
  detectedSplits st = first :: rest →
  detectedSplits
    (Nat.iter (length rest) (λ st, (mergeWithNext assemble 0 st).2) st)
  = [mkSplit (instrument (default first (last rest))) (startPage first)
       (endPage (default first (last rest)))
       (concat (pages <$> first :: rest))].
Proof.
  revert st first. induction rest as [|b rest IH]; intros st first Hst.
  - cbn. rewrite Hst, (right_id_L [] (++)). by destruct first.
  - cbn [length]. rewrite Nat.iter_succ_r.
    rewrite (IH _ _ (mergeWithNext_0 st first b rest Hst)). cbn.
    rewrite <- (assoc_L (++)).
    destruct rest as [|c rest]; [done|]. rewrite last_cons_cons.
    destruct (last (c :: rest)) eqn:Hlast; [done|]. by apply last_None in Hlast.
Qed.

(** X15. Merging until one split is left: on a list of [n+1] splits, [n]
    times [mergeWithPrevious(1)] leave a single split with the first
    split's name, and [n] times [mergeWithNext(0)] a single split with the
    last split's name; either holds the pages of all splits in order, from
    the first split's start page to the last split's end page. *)
Theorem merge_everything st (first : Split) (rest : list Split) :
  detectedSplits st = first :: rest →
  detectedSplits
    (Nat.iter (length rest) (λ st, (mergeWithPrevious assemble 1 st).2) st)
  = [mkSplit (instrument first) (startPage first)
       (endPage (default first (last rest)))
       (concat (pages <$> first :: rest))]
  ∧ detectedSplits
      (Nat.iter (length rest) (λ st, (mergeWithNext assemble 0 st).2) st)
    = [mkSplit (instrument (default first (last rest))) (startPage first)
         (endPage (default first (last rest)))
         (concat (pages <$> first :: rest))].
Proof.
  intros Hst. split; [by apply merge_all_up | by apply merge_all_down].
Qed.

End MergeEverything.

(** ** The assembler *)

Example parseInt_samples :
  parseInt (lit "42") = Some 42
  ∧ parseInt (lit "  -7px") = Some (-7)
  ∧ parseInt (lit "0x1F") = Some 31
  ∧ parseInt (lit "1e3") = Some 1
  ∧ parseInt (lit "") = None
  ∧ parseInt (lit "x9") = None.
Proof. vm_compute. repeat split. Qed.

Section AssemblerProperties.

Context {Page : Type}.
Implicit Types (uploadedPDFs : list (Assembler.UploadedPDF Page)).

(** X16. The number of copies of a part stays between 0 and 99 whatever is
    typed into its field: [updateReplicas] keeps every count in that range,
    changes nothing but the count of the entry at the index, and sets that
    count to 0 for a text that [parseInt] reads no number from. *)
Theorem updateReplicas_bounds (index : Z) (value : jsstring) uploadedPDFs :
  Forall (λ pdf, 0 ≤ Assembler.replicas pdf ≤ 99) uploadedPDFs →
  let uploadedPDFs' := (Assembler.updateReplicas index value uploadedPDFs).2 in
  Forall (λ pdf, 0 ≤ Assembler.replicas pdf ≤ 99) uploadedPDFs'
  ∧ (λ pdf, (Assembler.name pdf, Assembler.pdfDoc pdf, Assembler.pageCount pdf))
      <$> uploadedPDFs'
    = (λ pdf, (Assembler.name pdf, Assembler.pdfDoc pdf,
               Assembler.pageCount pdf))
      <$> uploadedPDFs
  ∧ (∀ j : nat, j ≠ Z.to_nat index → uploadedPDFs' !! j = uploadedPDFs !! j)
  ∧ (parseInt value = None →
     ∀ pdf, js_get uploadedPDFs' index = Some pdf →
            Assembler.replicas pdf = 0).
Proof.
  intros Hbounds uploadedPDFs'. subst uploadedPDFs'.
  unfold Assembler.updateReplicas.
  destruct (js_get uploadedPDFs index) as [pdf|] eqn:Hpdf; cbn [snd].
  - apply js_get_Some in Hpdf as [Hi Hpdf].
    split; [|split; [|split]].
    + apply Forall_insert; [done|]. cbn. lia.
    + rewrite list_fmap_insert. cbn. apply list_insert_id.
      by rewrite list_lookup_fmap, Hpdf.
    + intros j Hj. by apply list_lookup_insert_ne.
    + intros -> pdf' Hpdf'. apply js_get_Some in Hpdf' as [_ Hpdf'].
      rewrite list_lookup_insert_eq in Hpdf' by (by eapply lookup_lt_Some).
      by simplify_eq.
  - repeat split; try done. intros _ pdf Hpdf'. congruence.
Qed.

Lemma totalPages_from (sum : Z) uploadedPDFs :
  foldl (λ sum pdf, sum + Assembler.pageCount pdf * Assembler.replicas pdf)
    sum uploadedPDFs
  = sum + Assembler.totalPages uploadedPDFs.
Proof.
  unfold Assembler.totalPages. revert sum.
  induction uploadedPDFs as [|pdf l IH]; intros sum; cbn; [lia|].
  rewrite (IH (sum + _)), (IH (0 + _)). lia.
Qed.

Lemma length_copies (n : nat) (doc : list Page) :
  length (mjoin (replicate n doc)) = (n * length doc)%nat.
Proof.
  induction n as [|n IH]; [done|].
  change (mjoin (replicate (S n) doc)) with (doc ++ mjoin (replicate n doc)).
  rewrite length_app, IH. lia.
Qed.

Lemma total_is_copied uploadedPDFs :
  Forall (λ pdf, Assembler.pageCount pdf
                 = Z.of_nat (length (Assembler.pdfDoc pdf))
                 ∧ 0 ≤ Assembler.replicas pdf) uploadedPDFs →
  Assembler.totalPages uploadedPDFs
  = Z.of_nat (length (Assembler.copiedPages uploadedPDFs)).
Proof.
  induction 1 as [|pdf l [Hcount Hreplicas] Hl IH]; [done|].
  unfold Assembler.totalPages. cbn [foldl]. rewrite totalPages_from, IH.
  unfold Assembler.copiedPages. cbn. rewrite length_app, length_copies.
  fold (Assembler.copiedPages l). rewrite Hcount. lia.
Qed.

(** X17. The total the assembler shows is the number of pages it
    assembles, unless it is 0. When every entry's page count is that of its
    document, as [processPDF] records it, and no replica count is negative:
    a total other than 0 is the number of pages of the master document
    [assemblePDF()] saves, all of them copied pages; with a total of 0 the
    saved document is not empty but holds one blank page. *)
Theorem total_is_assembled uploadedPDFs :
  Forall (λ pdf, Assembler.pageCount pdf
                 = Z.of_nat (length (Assembler.pdfDoc pdf))
                 ∧ 0 ≤ Assembler.replicas pdf) uploadedPDFs →
  (Assembler.totalPages uploadedPDFs ≠ 0 →
   Assembler.totalPages uploadedPDFs
   = Z.of_nat (length (Assembler.assemblePDF uploadedPDFs))
   ∧ Assembler.assemblePDF uploadedPDFs
     = Some <$> Assembler.copiedPages uploadedPDFs)
  ∧ (Assembler.totalPages uploadedPDFs = 0 →
     Assembler.assemblePDF uploadedPDFs = [None]).
Proof.
  intros Hok. rewrite (total_is_copied _ Hok). unfold Assembler.assemblePDF.
  destruct (Assembler.copiedPages uploadedPDFs) as [|page copied].
  - split; [done|]. done.
  - split; [|done]. intros _. by rewrite length_fmap.
Qed.

End AssemblerProperties.

(** ** The further properties at work *)

Lemma generateFilename_plain_solo_cornet :
  generateFilename (lit "Band") (lit "Solo-Cornet_1")
  = lit "Band" ++ lit "-" ++ lit "Solo-Cornet_1" ++ lit ".pdf".
Proof.
  apply generateFilename_plain.
  - repeat constructor.
  - cbn. repeat split; intros [? ?]; discriminate.
Defined.

Lemma generateFilename_nothing_left_marks :
  generateFilename (lit "Band") (lit "(?!)") = lit "Band" ++ lit "-.pdf".
Proof. apply generateFilename_nothing_left. repeat constructor. Defined.

Lemma edits_outside_change_nothing_brass :
  mergeWithPrevious copy_pages 7 brass_session = (TypeError, brass_session)
  ∧ mergeWithNext copy_pages 7 brass_session = (TypeError, brass_session)
  ∧ handleInstrumentNameChange copy_pages 7 (lit "Tuba") brass_session
    = (TypeError, brass_session).
Proof.
  destruct (edits_outside_change_nothing copy_pages brass_session 7)
    as (Hup & Hdown & Hrename).
  split; [|split].
  - apply Hup. cbn. lia.
  - apply Hdown. cbn. lia.
  - apply Hrename; [cbn; lia | vm_compute; discriminate].
Defined.

Lemma brass_tidy : Forall (λ s, tidy (instrument s)) (detectedSplits brass_session).
Proof.
  repeat (apply Forall_cons_2 || apply Forall_nil_2);
    (split; [discriminate | split; intros c [= <-]; reflexivity]).
Defined.

Lemma edits_keep_names_tidy_brass :
  Forall (λ s, tidy (instrument s)) (detectedSplits brass_session)
  ∧ Forall (λ s, tidy (instrument s))
      (detectedSplits
         (handleInstrumentNameChange copy_pages 1 (lit " Tenor Horn ")
            brass_session).2)
  ∧ Forall (λ s, tidy (instrument s))
      (detectedSplits (mergeWithPrevious copy_pages 1 brass_session).2)
  ∧ Forall (λ s, tidy (instrument s))
      (detectedSplits (mergeWithNext copy_pages 1 brass_session).2).
Proof.
  split; [exact brass_tidy|].
  exact (edits_keep_names_tidy copy_pages brass_session 1 (lit " Tenor Horn ")
           brass_tidy).
Defined.

Lemma merge_down_or_up_brass :
  (0 ≤ 1 ∧ 1 + 1 < Z.of_nat (length (detectedSplits brass_session)))
  ∧ (λ s, (pages s, startPage s, endPage s))
      <$> detectedSplits (mergeWithNext copy_pages 1 brass_session).2
    = (λ s, (pages s, startPage s, endPage s))
      <$> detectedSplits (mergeWithPrevious copy_pages (1 + 1) brass_session).2.
Proof.
  split; [cbn; lia|].
  apply (merge_down_or_up copy_pages brass_session 1); cbn; lia.
Defined.

Lemma merge_regenerates_output_brass :
  (∃ merged,
     detectedSplits (mergeWithPrevious copy_pages 2 brass_session).2
       !! Z.to_nat (2 - 1) = Some merged
     ∧ match copy_pages ((λ p, p - 1) <$> pages merged) with
       | Some blob =>
           generatedPDFs (mergeWithPrevious copy_pages 2 brass_session).2
             !! Z.to_nat (2 - 1)
           = Some (Some (mkGenerated
                           (generateFilename (baseFilename brass_session)
                              (instrument merged))
                           blob merged))
       | None =>
           fmap (λ pdf, (filename pdf, blob pdf))
             <$> generatedPDFs (mergeWithPrevious copy_pages 2 brass_session).2
                   !! Z.to_nat (2 - 1)
           = fmap (λ pdf, (filename pdf, blob pdf))
               <$> generatedPDFs brass_session !! Z.to_nat (2 - 1)
       end)
  ∧ (∃ merged,
       detectedSplits (mergeWithNext copy_pages 2 brass_session).2
         !! Z.to_nat 2 = Some merged
       ∧ match copy_pages ((λ p, p - 1) <$> pages merged) with
         | Some blob =>
             generatedPDFs (mergeWithNext copy_pages 2 brass_session).2
               !! Z.to_nat 2
             = Some (Some (mkGenerated
                             (generateFilename (baseFilename brass_session)
                                (instrument merged))
                             blob merged))
         | None =>
             fmap (λ pdf, (filename pdf, blob pdf))
               <$> generatedPDFs (mergeWithNext copy_pages 2 brass_session).2
                     !! Z.to_nat 2
             = fmap (λ pdf, (filename pdf, blob pdf))
                 <$> generatedPDFs brass_session !! Z.to_nat 2
         end).
Proof.
  destruct (merge_regenerates_output copy_pages brass_session 2) as [Hup Hdown].
  split.
  - apply Hup. cbn. lia.
  - apply Hdown. cbn. lia.
Defined.

Lemma brass_in_sync : in_sync copy_pages brass_session.
Proof.
  split; [reflexivity|].
  intros [|[|[|[|i]]]] s Hs; cbn in Hs; simplify_eq;
    eexists; (split; [reflexivity|]); vm_compute; reflexivity.
Defined.


Lemma handleFilenameChange_in_sync_brass :
  detectedSplits (handleFilenameChange copy_pages brass_session)
  = detectedSplits brass_session
  ∧ in_sync copy_pages (handleFilenameChange copy_pages brass_session).
Proof.
  apply handleFilenameChange_in_sync; [reflexivity|].
  repeat (apply Forall_cons_2 || apply Forall_nil_2); by eexists.
Defined.

Lemma downloads_follow_splits_brass :
  ∃ downloads,
    downloadAll brass_session = (Finished, downloads)
    ∧ snd <$> downloads
      = (λ s, generateFilename (baseFilename brass_session) (instrument s))
        <$> detectedSplits brass_session
    ∧ Some ∘ fst <$> downloads
      = (λ s, copy_pages ((λ p, p - 1) <$> pages s))
        <$> detectedSplits brass_session.
Proof.
  exact (proj1 (downloads_follow_splits copy_pages brass_session brass_in_sync)).
Defined.

Lemma preview_buttons_brass :
  mergeWithPrevious copy_pages (Z.of_nat 0) brass_session
  = (Finished, brass_session)
  ∧ (∃ st', mergeWithNext copy_pages (Z.of_nat 0) brass_session
            = (Finished, st')
            ∧ S (length (detectedSplits st'))
              = length (detectedSplits brass_session)).
Proof.
  destruct (preview_buttons copy_pages brass_session 0 _ eq_refl)
    as (Hfirst & _ & _ & Hlast).
  split; [by apply Hfirst | by apply Hlast].
Defined.

Lemma preview_range_and_count_brass :
  ∃ item,
    displayPreview brass !! 2%nat = Some item
    ∧ Z.of_nat (pageCount item) = 5 - 4 + 1
    ∧ pageRange item = lit "Pages 4-5"
    ∧ pageLabel item = lit "pages".
Proof.
  eexists. split; [reflexivity|].
  destruct (preview_range_and_count brass 2 _
              (mkSplit (lit "Trombone") 4 5 [4; 5]) eq_refl eq_refl)
    as (Hcount & _ & Hmany).
  { split; [by cbn | by split]. }
  split; [exact Hcount|]. destruct Hmany as [-> ->]; [cbn; lia|].
  split; vm_compute; reflexivity.
Defined.

Lemma regenerated_output_name_cornets :
  ∃ base,
    generatedPDFs (regeneratePDFForSplit copy_pages 0 cornet_session)
      !! Z.to_nat 0
    = Some (Some (mkGenerated (generateFilename base (instrument cornet1))
                    [0; 1] cornet1))
    ∧ (trim (baseFilenameInput cornet_session) ≠ [] →
       base = trim (baseFilenameInput cornet_session)).
Proof.
  destruct (regenerated_output_name copy_pages cornet_session 0 cornet1 [0; 1]
              eq_refl eq_refl) as (base & Hout & Hbase & _).
  by exists base.
Defined.

Lemma merge_everything_brass :
  detectedSplits
    (Nat.iter 3 (λ st, (mergeWithPrevious copy_pages 1 st).2) brass_session)
  = [mkSplit (lit "Cornet") 1 6 [1; 2; 3; 4; 5; 6]]
  ∧ detectedSplits
      (Nat.iter 3 (λ st, (mergeWithNext copy_pages 0 st).2) brass_session)
    = [mkSplit (lit "Bass") 1 6 [1; 2; 3; 4; 5; 6]].
Proof.
  exact (merge_everything copy_pages brass_session
           (mkSplit (lit "Cornet") 1 2 [1; 2])
           [mkSplit (lit "Horn") 3 3 [3]; mkSplit (lit "Trombone") 4 5 [4; 5];
            mkSplit (lit "Bass") 6 6 [6]] eq_refl).
Defined.

Lemma demo_uploads_bounds :
  Forall (λ pdf, 0 ≤ Assembler.replicas pdf ≤ 99) demo_uploads.
Proof. repeat (apply Forall_cons_2 || apply Forall_nil_2); cbn; lia. Defined.

Lemma updateReplicas_bounds_demo :
  Forall (λ pdf, 0 ≤ Assembler.replicas pdf ≤ 99) demo_uploads
  ∧ Forall (λ pdf, 0 ≤ Assembler.replicas pdf ≤ 99)
      (Assembler.updateReplicas 0 (lit "250") demo_uploads).2.
Proof.
  split; [exact demo_uploads_bounds|].
  exact (proj1 (updateReplicas_bounds 0 (lit "250") demo_uploads
                  demo_uploads_bounds)).
Defined.

Lemma total_is_assembled_demo :
  (Assembler.totalPages demo_uploads
   = Z.of_nat (length (Assembler.assemblePDF demo_uploads))
   ∧ Assembler.assemblePDF demo_uploads
     = Some <$> Assembler.copiedPages demo_uploads)
  ∧ Assembler.assemblePDF
      (Assembler.updateReplicas 0 (lit "0")
         [Assembler.uploaded (lit "cornet.pdf") [1; 2]%nat]).2
    = [None].
Proof.
  split.
  - apply (total_is_assembled demo_uploads); [|discriminate].
    repeat (apply Forall_cons_2 || apply Forall_nil_2); cbn;
      (split; [done | lia]).
  - apply (total_is_assembled
             (Assembler.updateReplicas 0 (lit "0")
                [Assembler.uploaded (lit "cornet.pdf") [1; 2]%nat]).2);
      [|reflexivity].
    repeat (apply Forall_cons_2 || apply Forall_nil_2); cbn;
      (split; [done | lia]).
Defined.

(** A merge while the document library fails: the merged split holds the
    pages 3 to 5, and the output at its index is still the horn's file of
    one page. *)
Example merge_with_failing_library :
  pages
    <$> detectedSplits (mergeWithPrevious refuse_pages 2 brass_session).2
          !! 1%nat
  = Some [3; 4; 5]
  ∧ fmap (M := option) (λ pdf, (filename pdf, blob pdf))
      <$> generatedPDFs (mergeWithPrevious refuse_pages 2 brass_session).2
            !! 1%nat
    = Some (Some (lit "Band-Horn.pdf", [2])).
Proof. vm_compute. split; reflexivity. Qed.
